(** * A Python-subset to C translator and its symbol table

    Shallow embedding of
    - [hash/hash.h] and its implementation: the chained hash table used as
      the symbol table, and its iterator;
    - the bison grammar file: the semantic actions of every production, the
      [PARSE_ERROR] macro, and [main] with its code emitter.

    Conventions.
    - A C string is a [string] (the bytes before the terminating NUL).
    - [unsigned int] fields are [Z] with the reduction modulo [2^32] written
      where the C code can wrap; [unsigned long] is 64 bits wide.
    - A [void*] value stored in the table is an element of the parameter
      [V] of the table: the text it points to in the translator, and the
      address of a heap block where the frees of the table are followed (the
      set [live] is then the set of the allocated blocks).  The null pointer
      returned by [hash_get] is [None].
    - A chain of [struct association] nodes is the list of its (key, value)
      pairs from the head; a pointer into a chain is the suffix it starts.
    - A [float] is the rational it denotes: the payload of a numeric token
      is a [Q], and the load factor of the table is the exact quotient, which
      is the single-precision quotient as long as the table holds fewer than
      [2^24] elements in a power-of-two number of buckets. *)

From Stdlib Require Import ZArith QArith Qround Lia.
From stdpp Require Import base option list strings pretty gmap.

Local Open Scope Z_scope.
#[local] Set Warnings "-clear-no-such-hyp".

(** ** The hash table *)

Module Hash.

Definition INITIAL_CAPACITY : Z := 128.
Definition LOAD_FACTOR_THR : Z := 5.

Definition UINT_MOD : Z := 2 ^ 32.
Definition INT_MAX : Z := 2 ^ 31 - 1.
Definition ULONG_MOD : Z := 2 ^ 64.

(** [c = *key++] reads a [char] into an [int]; [char] is signed on the
    target, so bytes above 127 are negative. *)
Definition char_to_int (a : Ascii.ascii) : Z :=
  let b := Z.of_N (Ascii.N_of_ascii a) in
  if 128 <=? b then b - 256 else b.

(** The loop of [_djb_hash], on the [unsigned long] accumulator. *)
Fixpoint _djb_loop (hash : Z) (key : string) : Z :=
  match key with
  | EmptyString => hash
  | String a key' =>
      _djb_loop ((Z.shiftl hash 5 + hash + char_to_int a) mod ULONG_MOD) key'
  end.

(** [_djb_hash]: the accumulator starts at 5381 and is truncated to
    [unsigned int] by the return. *)
Definition _djb_hash (key : string) : Z := _djb_loop 5381 key mod UINT_MOD.

(** [struct association] without its [next] link, and a chain of them. *)
Abbreviation association V := (string * V)%type.
Abbreviation chain V := (list (string * V)).

Section table.
Context {V : Type}.


(** [struct hash]. *)
Record hash : Type := mkHash {
  table : list (chain V);
  capacity : Z;
  num_elems : Z
}.

(** [_hash_table_init]: [capacity] empty buckets, no element. *)
Definition _hash_table_init (cap : Z) : hash :=
  {| table := replicate (Z.to_nat cap) []; capacity := cap; num_elems := 0 |}.

Definition hash_create : hash := _hash_table_init INITIAL_CAPACITY.

(** [_hash_load_factor]: [num_elems / (float)capacity], as the exact
    quotient.  The single-precision quotient the C code computes is this
    rational whenever [num_elems < 2^24] and [capacity] is a power of two
    (the conversion and the division are then both exact); every capacity
    reachable from [hash_create] is [128 * 2^k], and never zero. *)
Definition _hash_load_factor (h : hash) : Q :=
  (inject_Z (num_elems h) / inject_Z (capacity h))%Q.

(** The test [_hash_load_factor(hash) > LOAD_FACTOR_THR]. *)
Definition load_factor_exceeded (h : hash) : bool :=
  negb (Qle_bool (_hash_load_factor h) (inject_Z LOAD_FACTOR_THR)).

(** The search loop shared by [hash_insert], [hash_get] and
    [hash_contains]: the first node of the chain whose key compares equal. *)
Fixpoint chain_find (key : string) (c : chain V) : option V :=
  match c with
  | [] => None
  | (k, v) :: c' => if String.eqb key k then Some v else chain_find key c'
  end.

(** [cur->value = value] on the node the search loop stopped at. *)
Fixpoint chain_assign (key : string) (value : V) (c : chain V) : chain V :=
  match c with
  | [] => []
  | (k, v) :: c' =>
      if String.eqb key k then (k, value) :: c'
      else (k, v) :: chain_assign key value c'
  end.

(** The bucket index [hashval % hash->capacity]; the remainder by zero is
    undefined, hence [None]. *)
Definition bucket_index (h : hash) (key : string) : option nat :=
  if capacity h =? 0 then None
  else Some (Z.to_nat (_djb_hash key mod capacity h)).

(** The part of [hash_insert] after the resize check. *)
Definition insert_no_resize (h : hash) (key : string) (value : V) : option hash :=
  idx ← bucket_index h key;
  c ← table h !! idx;
  match chain_find key c with
  | Some _ =>
      Some {| table := <[idx := chain_assign key value c]> (table h);
              capacity := capacity h;
              num_elems := num_elems h |}
  | None =>
      Some {| table := <[idx := (key, value) :: c]> (table h);
              capacity := capacity h;
              num_elems := (num_elems h + 1) mod UINT_MOD |}
  end.

(** [_hash_resize], given the [hash_insert] it calls back: the table is
    re-initialised with twice the capacity and the old associations are
    re-inserted, bucket by bucket and each chain from its head.  This is
    the table the call leaves; the call also frees each old association
    after re-inserting it, which [_hash_resize_mem_with] below follows. *)
Definition _hash_resize_with (insert : hash -> string -> V -> option hash)
    (h : hash) : option hash :=
  foldl (fun acc old_chain =>
           foldl (fun acc cur => h' ← acc; insert h' cur.1 cur.2) acc old_chain)
        (Some (_hash_table_init ((capacity h * 2) mod UINT_MOD)))
        (table h).

(** [hash_insert] and [_hash_resize] call each other; [depth] bounds the
    nesting of these calls ([None] when it is exhausted). *)
Fixpoint hash_insert_depth (depth : nat) (h : hash) (key : string) (value : V)
  : option hash :=
  match depth with
  | O => None
  | S d =>
      h1 ← (if load_factor_exceeded h
            then _hash_resize_with (hash_insert_depth d) h
            else Some h);
      insert_no_resize h1 key value
  end.

Definition _hash_resize (d : nat) (h : hash) : option hash :=
  _hash_resize_with (hash_insert_depth d) h.

(** A capacity is below [2^32] and doubles at each nested resize, so the
    nesting never exceeds 32. *)
Definition MAX_DEPTH : nat := 34.

Definition hash_insert (h : hash) (key : string) (value : V) : option hash :=
  hash_insert_depth MAX_DEPTH h key value.

(** A caller issuing one [hash_insert] per element of [ops], in order. *)
Definition hash_inserts (ops : list (association V)) (h : hash) : option hash :=
  foldl (fun acc op => h' ← acc; hash_insert h' op.1 op.2) (Some h) ops.

(** [hash_get]: the value of the first node with the key, else null. *)
Definition hash_get (h : hash) (key : string) : option V :=
  idx ← bucket_index h key;
  c ← table h !! idx;
  chain_find key c.

(** The unlinking of [hash_remove]: the chain without the node the search
    loop stopped at ([prev->next = cur->next], or the new head). *)
Fixpoint chain_remove (key : string) (c : chain V) : chain V :=
  match c with
  | [] => []
  | (k, v) :: c' =>
      if String.eqb key k then c' else (k, v) :: chain_remove key c'
  end.

(** [hash_remove]: when the key is found its node is unlinked and
    [num_elems] decremented; otherwise nothing changes.  No resize.  This
    is the table the call leaves; the call also frees the node it unlinks,
    which [hash_remove_mem] below follows. *)
Definition hash_remove (h : hash) (key : string) : option hash :=
  idx ← bucket_index h key;
  c ← table h !! idx;
  match chain_find key c with
  | Some _ =>
      Some {| table := <[idx := chain_remove key c]> (table h);
              capacity := capacity h;
              num_elems := (num_elems h - 1) mod UINT_MOD |}
  | None => Some h
  end.

(** A call of the table's interface that changes it. *)
Inductive operation : Type :=
  | Insert (key : string) (value : V)
  | Remove (key : string).

(** A caller issuing the calls [ops] in order. *)
Definition hash_run (ops : list operation) (h : hash) : option hash :=
  foldl (fun acc op =>
           h' ← acc;
           match op with
           | Insert key value => hash_insert h' key value
           | Remove key => hash_remove h' key
           end)
        (Some h) ops.

(** [hash_contains]: 1 when the search loop finds the key. *)
Definition hash_contains (h : hash) (key : string) : bool :=
  match bucket_index h key with
  | Some idx =>
      match table h !! idx with
      | Some c =>
          match chain_find key c with Some _ => true | None => false end
      | None => false
      end
  | None => false
  end.

(** *** Iterator *)

(** [struct hash_iter]: [next] is the chain suffix the pointer designates
    ([[]] for NULL), [next_idx] an [int]. *)
Record hash_iter : Type := mkIter {
  iter_hash : hash;
  next : chain V;
  next_idx : Z
}.

(** The loop [while (i < capacity && table[i] == NULL) i++], run for at most
    [n] steps from [i].  The [int] counter [i] is below [capacity] before
    each increment, so it does not overflow when [capacity <= INT_MAX]. *)
Fixpoint _skip_empty (n : nat) (h : hash) (i : Z) : Z :=
  match n with
  | O => i
  | S n' =>
      if (i <? capacity h)
         && match table h !! Z.to_nat i with Some [] => true | _ => false end
      then _skip_empty n' h (i + 1)
      else i
  end.

Definition _update_hash_iter_next (it : hash_iter) : hash_iter :=
  let nxt := match next it with [] => [] | _ :: rest => rest end in
  match nxt with
  | [] =>
      let start := next_idx it + 1 in
      let i := _skip_empty (Z.to_nat (capacity (iter_hash it) - start))
                           (iter_hash it) start in
      if i <? capacity (iter_hash it) then
        {| iter_hash := iter_hash it;
           next := default [] (table (iter_hash it) !! Z.to_nat i);
           next_idx := i |}
      else
        {| iter_hash := iter_hash it; next := []; next_idx := next_idx it |}
  | _ => {| iter_hash := iter_hash it; next := nxt; next_idx := next_idx it |}
  end.

Definition hash_iter_create (h : hash) : hash_iter :=
  _update_hash_iter_next {| iter_hash := h; next := []; next_idx := -1 |}.

Definition hash_iter_has_next (it : hash_iter) : bool :=
  match next it with [] => false | _ => true end.

(** [hash_iter_next]: the association under the pointer (key through
    [key_ptr], value returned) and the advanced iterator; the assertion
    [iter->next] fails on an exhausted iterator. *)
Definition hash_iter_next (it : hash_iter) : option (association V * hash_iter) :=
  match next it with
  | [] => None
  | curr :: _ => Some (curr, _update_hash_iter_next it)
  end.

(** The loop [while (hash_iter_has_next(iter)) { ... hash_iter_next ... }],
    collecting what each call yields; [n] bounds the number of rounds and the
    iterator left is returned with the sequence. *)
Fixpoint iter_drain (n : nat) (it : hash_iter) : list (association V) * hash_iter :=
  match n with
  | O => ([], it)
  | S n' =>
      if hash_iter_has_next it then
        match hash_iter_next it with
        | Some (a, it') => let r := iter_drain n' it' in (a :: r.1, r.2)
        | None => ([], it)
        end
      else ([], it)
  end.

End table.
Global Arguments hash : clear implicits.
Global Arguments hash_iter : clear implicits.
Global Arguments operation : clear implicits.

(** *** The calls with the frees they perform

    The table owns its values: [_association_free] calls [free] on the value
    of the association it is given.  Here a value is the address of a heap
    block (never null), [live] is the set of the blocks that are allocated,
    and a call is undefined ([None]) when it frees a block that is not
    allocated.  The functions of the previous section give the table a call
    leaves; the functions below are the same calls together with their
    frees.  Keys and association structures are allocated and freed by the
    table itself, each once, and are not tracked. *)

Section heap.
Context `{Countable V}.

(** [free(p)]. *)
Definition free (p : V) (live : gset V) : option (gset V) :=
  if decide (p ∈ live) then Some (live ∖ {[ p ]}) else None.

(** [_association_free(assoc)], as far as the value goes. *)
Definition _association_free (assoc : association V) (live : gset V)
  : option (gset V) :=
  free assoc.2 live.

(** [_hash_resize], given the [hash_insert] it calls back: each old
    association is re-inserted into the new array and then freed, its value
    included. *)
Definition _hash_resize_mem_with
    (insert : hash V -> gset V -> string -> V -> option (hash V * gset V))
    (h : hash V) (live : gset V) : option (hash V * gset V) :=
  foldl (fun acc old_chain =>
           foldl (fun acc tmp =>
                    st ← acc;
                    st1 ← insert st.1 st.2 tmp.1 tmp.2;
                    live2 ← _association_free tmp st1.2;
                    Some (st1.1, live2))
                 acc old_chain)
        (Some (_hash_table_init ((capacity h * 2) mod UINT_MOD), live))
        (table h).

(** [hash_insert]: the value inserted is not touched, and a value that is
    replaced is not freed. *)
Fixpoint hash_insert_mem_depth (depth : nat) (h : hash V) (live : gset V)
    (key : string) (value : V) : option (hash V * gset V) :=
  match depth with
  | O => None
  | S d =>
      st1 ← (if load_factor_exceeded h
             then _hash_resize_mem_with (hash_insert_mem_depth d) h live
             else Some (h, live));
      h2 ← insert_no_resize st1.1 key value;
      Some (h2, st1.2)
  end.

Definition _hash_resize_mem (d : nat) (h : hash V) (live : gset V)
  : option (hash V * gset V) :=
  _hash_resize_mem_with (hash_insert_mem_depth d) h live.

Definition hash_insert_mem (h : hash V) (live : gset V) (key : string)
    (value : V) : option (hash V * gset V) :=
  hash_insert_mem_depth MAX_DEPTH h live key value.

(** [hash_remove]: the association found is unlinked and freed. *)
Definition hash_remove_mem (h : hash V) (live : gset V) (key : string)
  : option (hash V * gset V) :=
  idx ← bucket_index h key;
  c ← table h !! idx;
  match chain_find key c with
  | Some value =>
      live1 ← _association_free (key, value) live;
      Some ({| table := <[idx := chain_remove key c]> (table h);
               capacity := capacity h;
               num_elems := (num_elems h - 1) mod UINT_MOD |}, live1)
  | None => Some (h, live)
  end.

(** [hash_free]: every association of every bucket is freed. *)
Definition hash_free_mem (h : hash V) (live : gset V) : option (gset V) :=
  foldl (fun acc old_chain =>
           foldl (fun acc cur => live1 ← acc; _association_free cur live1)
                 acc old_chain)
        (Some live) (table h).

(** A caller issuing the calls [ops] in order. *)
Definition hash_run_mem (ops : list (operation V)) (h : hash V)
    (live : gset V) : option (hash V * gset V) :=
  foldl (fun acc op =>
           st ← acc;
           match op with
           | Insert key value => hash_insert_mem st.1 st.2 key value
           | Remove key => hash_remove_mem st.1 st.2 key
           end)
        (Some (h, live)) ops.

End heap.

End Hash.

(** ** The conversions of [printf] the translator uses

    The C library is not part of the repository; these follow the C standard
    (7.21.6.1) for finite non-negative arguments, the only ones a numeric
    literal can carry.  The argument is the exact value of the [float]. *)

Module Printf.

(** Nearest integer to [n / m] ([0 <= n], [0 < m]), ties to even. *)
Definition round_div (n m : Z) : Z :=
  let q := n / m in
  let r := n mod m in
  if 2 * r <? m then q
  else if m <? 2 * r then q + 1
  else if Z.even q then q else q + 1.

(** The decimal digits of [z], left-padded with zeros to [width]. *)
Definition digits (width : nat) (z : Z) : string :=
  let d := pretty z in
  String.concat "" (replicate (width - String.length d) "0"%string) +:+ d.

(** Removal of trailing zeros, as [%g] does without the [#] flag. *)
Fixpoint strip_zeros (s : string) : string :=
  match s with
  | EmptyString => EmptyString
  | String a s' =>
      match strip_zeros s' with
      | EmptyString => if Ascii.eqb a (Ascii.ascii_of_nat 48) then EmptyString else String a EmptyString
      | t => String a t
      end
  end.

(** [%d]. *)
Definition fmt_d (z : Z) : string := pretty z.

(** [%.1f]: one digit after the point, the value rounded to it. *)
Definition fmt_1f (x : Q) : string :=
  let t := round_div (10 * Qnum x) (Zpos (Qden x)) in
  pretty (t / 10) +:+ "." +:+ pretty (t mod 10).

(** The number of decimal digits of [z]. *)
Definition ndigits (z : Z) : Z := Z.of_nat (String.length (pretty z)).

(** The decimal exponent [X] with [10^X <= a/b < 10^(X+1)] ([0 < a]). *)
Definition exponent10 (a b : Z) : Z :=
  let e0 := ndigits a - ndigits b in
  let reaches := if 0 <=? e0 then b * 10 ^ e0 <=? a else b <=? a * 10 ^ (- e0) in
  if reaches then e0 else e0 - 1.

(** The six significant digits of [a/b] and the exponent after rounding. *)
Definition significand6 (a b : Z) : Z * Z :=
  let X := exponent10 a b in
  let d := if X <=? 5 then round_div (a * 10 ^ (5 - X)) b
           else round_div a (b * 10 ^ (X - 5)) in
  if d =? 1000000 then (100000, X + 1) else (d, X).

(** [%g] with the default precision 6. *)
Definition fmt_g (x : Q) : string :=
  if Qnum x =? 0 then "0"
  else
    let '(d, X) := significand6 (Qnum x) (Zpos (Qden x)) in
    if (X <? -4) || (6 <=? X) then
      let frac := strip_zeros (digits 5 (d mod 100000)) in
      pretty (d / 100000)
      +:+ (if String.eqb frac "" then "" else "." +:+ frac)
      +:+ "e" +:+ (if X <? 0 then "-" else "+") +:+ digits 2 (Z.abs X)
    else
      let scale := 10 ^ (5 - X) in
      let frac := strip_zeros (digits (Z.to_nat (5 - X)) (d mod scale)) in
      pretty (d / scale)
      +:+ (if String.eqb frac "" then "" else "." +:+ frac).

End Printf.

(** ** The translator: grammar actions and [main]

    The parser bison generates from the grammar runs the action of a
    production when it reduces by it, that is bottom-up and left to right
    along the derivation of the input; a derivation is represented by a tree
    with one constructor per production, and [reduce_*] runs the actions in
    that order.  Every nonterminal carries a [char*] value (the C text
    synthesized so far); a token carries its payload and, where an action
    reads [@1], its line. *)

Module Translator.
Import Hash Printf.

(** The newline character written [\n] in the C format strings. *)
Definition NL : string := String (Ascii.ascii_of_nat 10) EmptyString.

(** The globals of the parser: [symbols], [_error], and what has been
    written to the error stream (one string per [fprintf]). *)
Record state : Type := mkState {
  symbols : hash string;
  _error : Z;
  stderr : list string
}.

(** [_error = 1]. *)
Definition set_error (st : state) : state :=
  {| symbols := symbols st; _error := 1; stderr := stderr st |}.

(** [fprintf(stderr, ...)] producing [line]. *)
Definition fprintf_stderr (line : string) (st : state) : state :=
  {| symbols := symbols st; _error := _error st; stderr := stderr st ++ [line] |}.

(** The table [symbols] points to after a call that updates it. *)
Definition set_symbols (h : hash string) (st : state) : state :=
  {| symbols := h; _error := _error st; stderr := stderr st |}.

(** The macro [PARSE_ERROR(err_message, loc)]: the diagnostic, the flag, and
    [YYERROR], which abandons the reduction (no value is produced and the
    parser enters error recovery). *)
Definition PARSE_ERROR (err_message : string) (first_line : Z) (st : state) : state :=
  set_error
    (fprintf_stderr ("Error: " +:+ err_message +:+ " on line "
                     +:+ fmt_d first_line +:+ NL) st).

(** [yyerror]: the diagnostic only. *)
Definition yyerror (err : string) (st : state) : state :=
  fprintf_stderr ("Error: " +:+ err +:+ NL) st.

(** *** Expressions *)

Inductive binop : Set :=
  PLUS | MINUS | TIMES | DIVIDEDBY | EQ | NEQ | GT | GTE | LT | LTE.

(** The operator text of the format strings ["%s + %s"], ... *)
Definition binop_text (op : binop) : string :=
  match op with
  | PLUS => "+" | MINUS => "-" | TIMES => "*" | DIVIDEDBY => "/"
  | EQ => "==" | NEQ => "!=" | GT => ">" | GTE => ">=" | LT => "<" | LTE => "<="
  end.

(** One constructor per production of [expression]. *)
Inductive expression : Type :=
  | E_paren (e : expression)
  | E_binop (e1 : expression) (op : binop) (e2 : expression)
  | E_INTEGER (num : Q)
  | E_FLOAT (num : Q)
  | E_BOOLEAN (str : string)
  | E_juxtaposed (e1 e2 : expression)
  | E_IDENTIFIER (str : string) (first_line : Z).

(** The action of [expression: INTEGER]. *)
Definition expression_INTEGER (num : Q) : string := fmt_g num.

(** The conversion [(int)$1] of a [float]: the truncation toward zero.
    Outside the range of [int] the conversion is undefined; the conversion
    instruction of the target then yields [INT_MIN]. *)
Definition INT_MIN : Z := - 2 ^ 31.

Definition int_of_float (num : Q) : Z :=
  let t := if Qle_bool 0 num then Qfloor num else Qceiling num in
  if (INT_MIN <=? t) && (t <=? INT_MAX) then t else INT_MIN.

(** The action of [expression: FLOAT]; [(int)$1 == $1] compares the value
    with its conversion to [int]. *)
Definition expression_FLOAT (num : Q) : string :=
  if Qeq_bool (inject_Z (int_of_float num)) num
  then fmt_1f num else fmt_g num.

(** The action of [expression: BOOLEAN]:
    [strdup(strcmp($1, "True") ? "0" : "1")]. *)
Definition expression_BOOLEAN (str : string) : string :=
  if String.eqb str "True" then "1" else "0".

(** The action of [expression: IDENTIFIER].  When the symbol is unknown the
    action assigns nothing to [$$], which keeps the value [$1] the parser
    gives it before every action. *)
Definition expression_IDENTIFIER (str : string) (first_line : Z) (st : state)
  : string * state :=
  if hash_contains (symbols st) str then (str, st)
  else (str,
        set_error
          (fprintf_stderr ("Error: Invalid Symbol (" +:+ str +:+ ") on line "
                           +:+ fmt_d first_line +:+ NL) st)).

(** The reductions of an expression, sub-expressions first. *)
Fixpoint reduce_expression (e : expression) (st : state) : string * state :=
  match e with
  | E_paren e1 =>
      let '(v, st) := reduce_expression e1 st in ("(" +:+ v +:+ ")", st)
  | E_binop e1 op e2 =>
      let '(v1, st) := reduce_expression e1 st in
      let '(v2, st) := reduce_expression e2 st in
      (v1 +:+ " " +:+ binop_text op +:+ " " +:+ v2, st)
  | E_INTEGER num => (expression_INTEGER num, st)
  | E_FLOAT num => (expression_FLOAT num, st)
  | E_BOOLEAN str => (expression_BOOLEAN str, st)
  | E_juxtaposed e1 e2 =>
      let '(v1, st) := reduce_expression e1 st in
      let '(_, st) := reduce_expression e2 st in
      (v1, st)
  | E_IDENTIFIER str line => expression_IDENTIFIER str line st
  end.

(** *** Statements *)

(** One constructor per production that is not an error production. *)
Inductive statement : Type :=
  | S_assignment (ident : string) (e : expression)
  | S_if (cond : expression) (body : statement_list)
  | S_if_elif_else (cond : expression) (body : statement_list)
                   (elifs : elif_block) (els : else_block)
  | S_if_elif (cond : expression) (body : statement_list) (elifs : elif_block)
  | S_if_else (cond : expression) (body : statement_list) (els : else_block)
  | S_while (cond : expression) (body : statement_list)
  | S_break
with statement_list : Type :=
  | SL_more (sl : statement_list) (s : statement)
  | SL_one (s : statement)
with elif_block : Type :=
  | EB_more (elifs : elif_block) (cond : expression) (body : statement_list)
  | EB_one (cond : expression) (body : statement_list)
with else_block : Type :=
  | ELSE (body : statement_list).

(** The action of [assignment_statement: IDENTIFIER ASSIGN expression
    NEWLINE]. *)
Definition assignment_statement (ident value : string) (st : state)
  : option (string * state) :=
  h ← hash_insert (symbols st) ident value;
  Some (ident +:+ " = " +:+ value +:+ ";" +:+ NL, set_symbols h st).

(** The reductions of a statement; [None] only if [hash_insert] is
    undefined. *)
Fixpoint reduce_statement (s : statement) (st : state)
  : option (string * state) :=
  match s with
  | S_assignment ident e =>
      let '(v, st) := reduce_expression e st in
      assignment_statement ident v st
  | S_if cond body =>
      let '(c, st) := reduce_expression cond st in
      '(b, st) ← reduce_statement_list body st;
      Some ("if (" +:+ c +:+ ") {" +:+ NL +:+ b +:+ "}" +:+ NL, st)
  | S_if_elif_else cond body elifs els =>
      let '(c, st) := reduce_expression cond st in
      '(b, st) ← reduce_statement_list body st;
      '(ei, st) ← reduce_elif_block elifs st;
      '(el, st) ← reduce_else_block els st;
      Some ("if (" +:+ c +:+ ") {" +:+ NL +:+ b +:+ "} " +:+ ei +:+ " " +:+ el, st)
  | S_if_elif cond body elifs =>
      let '(c, st) := reduce_expression cond st in
      '(b, st) ← reduce_statement_list body st;
      '(ei, st) ← reduce_elif_block elifs st;
      Some ("if (" +:+ c +:+ ") {" +:+ NL +:+ b +:+ "} " +:+ ei, st)
  | S_if_else cond body els =>
      let '(c, st) := reduce_expression cond st in
      '(b, st) ← reduce_statement_list body st;
      '(el, st) ← reduce_else_block els st;
      Some ("if (" +:+ c +:+ ") {" +:+ NL +:+ b +:+ "} " +:+ el, st)
  | S_while cond body =>
      let '(c, st) := reduce_expression cond st in
      '(b, st) ← reduce_statement_list body st;
      Some ("while (" +:+ c +:+ ") {" +:+ NL +:+ b +:+ "}" +:+ NL, st)
  | S_break => Some ("break;" +:+ NL, st)
  end
with reduce_statement_list (sl : statement_list) (st : state)
  : option (string * state) :=
  match sl with
  | SL_more sl' s =>
      '(v1, st) ← reduce_statement_list sl' st;
      '(v2, st) ← reduce_statement s st;
      Some (v1 +:+ v2, st)
  | SL_one s => reduce_statement s st
  end
with reduce_elif_block (eb : elif_block) (st : state)
  : option (string * state) :=
  match eb with
  | EB_more eb' cond body =>
      '(v1, st) ← reduce_elif_block eb' st;
      let '(c, st) := reduce_expression cond st in
      '(b, st) ← reduce_statement_list body st;
      Some (v1 +:+ " else if (" +:+ c +:+ ") {" +:+ NL +:+ b +:+ "}", st)
  | EB_one cond body =>
      let '(c, st) := reduce_expression cond st in
      '(b, st) ← reduce_statement_list body st;
      Some ("else if (" +:+ c +:+ ") {" +:+ NL +:+ b +:+ "}", st)
  end
with reduce_else_block (el : else_block) (st : state)
  : option (string * state) :=
  match el with
  | ELSE body =>
      '(b, st) ← reduce_statement_list body st;
      Some ("else {" +:+ NL +:+ b +:+ "}" +:+ NL, st)
  end.

(** The action of [program: statement_list]. *)
Definition program (body : string) (st : state) : option state :=
  h ← hash_insert (symbols st) "program" body;
  Some (set_symbols h st).

(** *** Error productions *)

(** Each of these actions is [PARSE_ERROR] with its own message and the
    line [@1] of the first symbol of the production. *)
Definition assignment_statement_two_identifiers (first_line : Z) : state -> state :=
  PARSE_ERROR "Invalid assignment statement" first_line.
Definition assignment_statement_indented (first_line : Z) : state -> state :=
  PARSE_ERROR "Invalid indentation" first_line.
Definition if_statement_missing_colon (first_line : Z) : state -> state :=
  PARSE_ERROR "Missing colon after 'if' statement" first_line.
Definition if_statement_unexpected_elif (first_line : Z) : state -> state :=
  PARSE_ERROR "Unexpected 'elif' statement" first_line.
Definition if_statement_unexpected_else (first_line : Z) : state -> state :=
  PARSE_ERROR "Unexpected 'else' statement" first_line.
Definition elif_block_missing_colon (first_line : Z) : state -> state :=
  PARSE_ERROR "Missing colon after 'elif' statement" first_line.
Definition else_block_missing_colon (first_line : Z) : state -> state :=
  PARSE_ERROR "Missing colon after 'else' statement" first_line.
Definition while_statement_missing_expression (first_line : Z) : state -> state :=
  PARSE_ERROR "Missing expression for 'while' statement" first_line.
Definition while_statement_missing_colon (first_line : Z) : state -> state :=
  PARSE_ERROR "Missing colon after 'while' statement" first_line.

(** *** The engine seen from [main] *)

(** How a run of the push parser ends. *)
Inductive engine_result : Set := Accepted | SyntaxError.

(** What the engine does on one input: the state its reductions leave and
    how it ends ([None] if an action is undefined). *)
Definition engine_run : Type := state -> option (engine_result * state).

(** The run along a derivation without error productions: the reductions of
    the statement list, the action of [program], acceptance. *)
Definition derivation_run (p : statement_list) : engine_run :=
  fun st =>
    '(body, st) ← reduce_statement_list p st;
    st ← program body st;
    Some (Accepted, st).

(** Modelled from the spec: the scanner [yylex], which is not among the
    sources.  It pushes the tokens of the input to the engine one at a time
    and returns zero exactly when the engine reached the accepting state. *)
Definition yylex (run : engine_run) (st : state) : option (Z * state) :=
  '(r, st) ← run st;
  Some (match r with Accepted => 0 | SyntaxError => 1 end, st).

(** *** [main] and the code emitter *)

(** The double quote of the C string literals that are printed. *)
Definition DQ : string := String (Ascii.ascii_of_nat 34) EmptyString.

(** The keys a loop [while (hash_iter_has_next(iter)) ... hash_iter_next]
    over a fresh iterator sees, in order; the loop ends when the iterator is
    exhausted, after as many rounds as the chains have nodes. *)
Definition iterated_keys (h : hash string) : list string :=
  (iter_drain (length (concat (table h))) (hash_iter_create h)).1.*1.

(** The keys that get past [if (strcmp(key, "program") == 0) continue;]. *)
Definition printed_keys (h : hash string) : list string :=
  filter (fun key => key <> "program"%string) (iterated_keys h).

Definition declaration (key : string) : string :=
  "double " +:+ key +:+ ";" +:+ NL.

Definition print_statement (key : string) : string :=
  "printf(" +:+ DQ +:+ key +:+ ": %lf\n" +:+ DQ +:+ ", " +:+ key +:+ ");" +:+ NL.

(** The text the [printf] calls of the accepting branch produce when the
    first loop prints [decls], the second [prints], and ["program"] maps to
    [body]. *)
Definition program_text (decls : list string) (body : string)
    (prints : list string) : string :=
  "#include <stdio.h>" +:+ NL
  +:+ "int main() {" +:+ NL
  +:+ String.concat "" (declaration <$> decls)
  +:+ NL +:+ "/* Begin Program */" +:+ NL +:+ NL
  +:+ body
  +:+ NL +:+ "/* End Program */" +:+ NL +:+ NL
  +:+ String.concat "" (print_statement <$> prints)
  +:+ "}" +:+ NL.

(** What the accepting branch of [main] writes to standard output; [None]
    when ["program"] is not in the table (a null [%s] argument). *)
Definition emit (h : hash string) : option string :=
  body ← hash_get h "program";
  Some (program_text (printed_keys h) body (printed_keys h)).

(** What a run of the translator leaves: exit status and the two streams. *)
Record outcome : Type := mkOutcome {
  status : Z;
  stdout : string;
  diagnostics : list string
}.

Definition initial_state : state :=
  {| symbols := hash_create; _error := 0; stderr := [] |}.

(** [main]: emission if [!yylex() && !_error], status 1 otherwise. *)
Definition main (run : engine_run) : option outcome :=
  '(r, st) ← yylex run initial_state;
  if (r =? 0) && (_error st =? 0) then
    out ← emit (symbols st);
    Some {| status := 0; stdout := out; diagnostics := stderr st |}
  else
    Some {| status := 1; stdout := ""; diagnostics := stderr st |}.

(** *** Two runs with errors *)

(** The reductions on the tokens of [if x > 5] followed by NEWLINE and the
    end of the input: [expression: IDENTIFIER] for [x] on line 1,
    [expression: INTEGER], [expression: expression GT expression], then
    [if_statement: IF expression NEWLINE], whose action is [PARSE_ERROR].
    After [YYERROR] no NEWLINE is left for [statement: error NEWLINE], so
    nothing more is reduced; [ending] is how the engine reports the end. *)
Definition missing_colon_run (ending : engine_result) : engine_run :=
  fun st =>
    let '(_, st) :=
      reduce_expression (E_binop (E_IDENTIFIER "x" 1) GT (E_INTEGER 5)) st in
    Some (ending, if_statement_missing_colon 1 st).

(** The reductions on a one-line input with a syntax error no error
    production matches, such as [x = = y]: the parser calls [yyerror] with
    its message, discards tokens up to the NEWLINE, reduces
    [statement: error NEWLINE], whose empty action leaves in [$$] the value
    [$1] of the error token ([error_value], the payload of the last token
    discarded), then [statement_list: statement] and [program], and
    accepts. *)
Definition recovered_syntax_error_run (message error_value : string) : engine_run :=
  fun st =>
    let st := yyerror message st in
    st ← program error_value st;
    Some (Accepted, st).

End Translator.


(** ** Specification vocabulary for the hash table *)

Module HashSpec.
Import Hash.

Section spec.
Context {V : Type}.
Implicit Types (h : hash V) (c : chain V) (k key : string) (v value : V).

(** The table read as a finite map. *)
Definition contents h : gmap string V := list_to_map (concat (table h)).

(** The representation invariant of a table. *)
Record wf h : Prop := {
  wf_cap_pos : 0 < capacity h;
  wf_cap_uint : capacity h < UINT_MOD;
  wf_length : length (table h) = Z.to_nat (capacity h);
  wf_bucket : forall i c k v,
      table h !! i = Some c -> (k, v) ∈ c ->
      Z.to_nat (_djb_hash k mod capacity h) = i;
  wf_nodup : NoDup (concat (table h)).*1;
  wf_count : num_elems h = Z.of_nat (length (concat (table h))) mod UINT_MOD
}.

(** The associations of all the buckets but bucket [idx]. *)
Definition others (tbl : list (chain V)) (idx : nat) : chain V :=
  concat (take idx tbl ++ drop (S idx) tbl).

(** What one [hash_insert] establishes. *)
Definition insert_post h key value (h' : hash V) : Prop :=
  wf h' /\ contents h' = <[key := value]> (contents h)
  /\ capacity h <= capacity h'
  /\ (load_factor_exceeded h = false -> capacity h' = capacity h)
  /\ (load_factor_exceeded h = true ->
      Z.of_nat (size (contents h)) <= 10 * capacity h + 1 ->
      capacity h' = 2 * capacity h)
  /\ (load_factor_exceeded h = true -> 2 * capacity h <= capacity h').

(** One insertion, on finite maps. *)
Definition put (m : gmap string V) (a : association V) : gmap string V :=
  <[a.1 := a.2]> m.

(** What an iterator has still to yield: the rest of the current chain, then
    the buckets after [next_idx]. *)
Definition remaining (it : hash_iter V) : chain V :=
  next it
  ++ concat (drop (Z.to_nat (next_idx it + 1)) (table (iter_hash it))).

(** One call of the interface, on finite maps. *)
Definition apply_operation (m : gmap string V) (op : operation V)
  : gmap string V :=
  match op with
  | Insert key value => <[key := value]> m
  | Remove key => delete key m
  end.

(** An iterator as [hash_iter_create] and [hash_iter_next] leave it: its
    table has one bucket per unit of capacity, and a null [next] means
    nothing remains. *)
Definition iter_ok (it : hash_iter V) : Prop :=
  length (table (iter_hash it)) = Z.to_nat (capacity (iter_hash it))
  /\ -1 <= next_idx it
  /\ (next it = [] -> remaining it = []).

End spec.

Section heap_spec.
Context `{Countable V}.

(** The values a table stores, bucket by bucket and each chain from its
    head. *)
Definition values (h : hash V) : list V := (concat (table h)).*2.

(** The table owns its values: each is an allocated block, and no block is
    stored twice. *)
Definition owns (h : hash V) (live : gset V) : Prop :=
  NoDup (values h) /\ forall v, v ∈ values h -> v ∈ live.

End heap_spec.





(** Three insertions, the last repeating the first key. *)
Definition small_ops : list (string * nat) :=
  [("x"%string, 1%nat); ("y"%string, 2%nat); ("x"%string, 3%nat)].

(** The table they build. *)
Definition small_table : hash nat :=
  default hash_create (hash_inserts small_ops hash_create).

(** The three-letter key number [i] (distinct for [i < 17576]). *)
Definition wide_key (i : nat) : string :=
  String (Ascii.ascii_of_nat (97 + i / 676))
    (String (Ascii.ascii_of_nat (97 + (i / 26) mod 26))
       (String (Ascii.ascii_of_nat (97 + i mod 26)) EmptyString)).

(** The heap blocks number [0] to [n - 1]. *)
Definition blocks (n : nat) : gset nat := list_to_set (seq 0 n).

(** [n] insertions of distinct keys, from key number [from] on, the
    [i]-th key with block [i] as its value. *)
Definition fresh_inserts (from n : nat) : list (operation nat) :=
  (fun i => Insert (wide_key i) i) <$> seq from n.

(** What a run of calls leaves, when it is defined. *)
Definition table_after (r : option (hash nat * gset nat)) : hash nat :=
  default hash_create (fst <$> r).
Definition live_after (r : option (hash nat * gset nat)) : gset nat :=
  default ∅ (snd <$> r).

(** After the run [r], [hash_get] returns block [i] for key number [i],
    and block [i] is not allocated. *)
Definition returned_but_freed (r : option (hash nat * gset nat)) (i : nat)
  : bool :=
  bool_decide (hash_get (table_after r) (wide_key i) = Some i)
  && negb (bool_decide (i ∈ live_after r)).

(** 642 and 1281 distinct insertions from [hash_create], every value a
    block of its own: the first run resizes once, at its last insertion; the
    second leaves 1281 elements in 256 buckets, so that the next call to
    [hash_insert] resizes again. *)
Definition once_resized : option (hash nat * gset nat) :=
  hash_run_mem (fresh_inserts 0 642) hash_create (blocks 1282).
Definition twice_loaded : option (hash nat * gset nat) :=
  hash_run_mem (fresh_inserts 0 1281) hash_create (blocks 1282).

(** The calls the translator makes on its table for a program of 641
    assignments to distinct identifiers: one insertion per assignment, the
    value a block of its own, then the insertion of ["program"]. *)
Definition table_of_641_identifiers : option (hash nat * gset nat) :=
  hash_run_mem (fresh_inserts 0 641 ++ [Insert "program" 641%nat])
               hash_create (blocks 642).

End HashSpec.

(** ** Specification vocabulary for the translator *)

Module TranslatorSpec.
Import Hash Printf Translator HashSpec.

Scheme statement_mut := Induction for statement Sort Prop
  with statement_list_mut := Induction for statement_list Sort Prop
  with elif_block_mut := Induction for elif_block Sort Prop
  with else_block_mut := Induction for else_block Sort Prop.
Combined Scheme derivation_mutind
  from statement_mut, statement_list_mut, elif_block_mut, else_block_mut.

(** The identifiers an expression references. *)
Fixpoint referenced (e : expression) : gset string :=
  match e with
  | E_paren e1 => referenced e1
  | E_binop e1 _ e2 | E_juxtaposed e1 e2 => referenced e1 ∪ referenced e2
  | E_INTEGER _ | E_FLOAT _ | E_BOOLEAN _ => ∅
  | E_IDENTIFIER str _ => {[ str ]}
  end.

(** The identifiers assigned anywhere in a statement. *)
Fixpoint assigned (s : statement) : gset string :=
  match s with
  | S_assignment ident _ => {[ ident ]}
  | S_if _ body | S_while _ body => assigned_list body
  | S_if_elif_else _ body elifs els =>
      assigned_list body ∪ assigned_elif elifs ∪ assigned_else els
  | S_if_elif _ body elifs => assigned_list body ∪ assigned_elif elifs
  | S_if_else _ body els => assigned_list body ∪ assigned_else els
  | S_break => ∅
  end
with assigned_list (sl : statement_list) : gset string :=
  match sl with
  | SL_more sl' s => assigned_list sl' ∪ assigned s
  | SL_one s => assigned s
  end
with assigned_elif (eb : elif_block) : gset string :=
  match eb with
  | EB_more eb' _ body => assigned_elif eb' ∪ assigned_list body
  | EB_one _ body => assigned_list body
  end
with assigned_else (el : else_block) : gset string :=
  match el with
  | ELSE body => assigned_list body
  end.

(** Every identifier an expression references has an assignment earlier in
    the text, [known] being the identifiers assigned before the statement. *)
Fixpoint defined_before_use (known : gset string) (s : statement) : Prop :=
  match s with
  | S_assignment _ e => referenced e ⊆ known
  | S_if cond body | S_while cond body =>
      referenced cond ⊆ known /\ defined_before_use_list known body
  | S_if_elif_else cond body elifs els =>
      referenced cond ⊆ known /\ defined_before_use_list known body
      /\ defined_before_use_elif (known ∪ assigned_list body) elifs
      /\ defined_before_use_else
           (known ∪ assigned_list body ∪ assigned_elif elifs) els
  | S_if_elif cond body elifs =>
      referenced cond ⊆ known /\ defined_before_use_list known body
      /\ defined_before_use_elif (known ∪ assigned_list body) elifs
  | S_if_else cond body els =>
      referenced cond ⊆ known /\ defined_before_use_list known body
      /\ defined_before_use_else (known ∪ assigned_list body) els
  | S_break => True
  end
with defined_before_use_list (known : gset string) (sl : statement_list) : Prop :=
  match sl with
  | SL_more sl' s =>
      defined_before_use_list known sl'
      /\ defined_before_use (known ∪ assigned_list sl') s
  | SL_one s => defined_before_use known s
  end
with defined_before_use_elif (known : gset string) (eb : elif_block) : Prop :=
  match eb with
  | EB_more eb' cond body =>
      defined_before_use_elif known eb'
      /\ referenced cond ⊆ known ∪ assigned_elif eb'
      /\ defined_before_use_list (known ∪ assigned_elif eb') body
  | EB_one cond body =>
      referenced cond ⊆ known /\ defined_before_use_list known body
  end
with defined_before_use_else (known : gset string) (el : else_block) : Prop :=
  match el with
  | ELSE body => defined_before_use_list known body
  end.

(** The identifiers the symbol table holds. *)
Definition known_symbols (st : state) : gset string :=
  dom (contents (symbols st)).

(** What the reductions of such a derivation leave: a well-formed table
    with the assigned identifiers added, the flag and the error stream
    untouched. *)
Definition clean_post (st st' : state) (new : gset string) : Prop :=
  wf (symbols st') /\ known_symbols st' = known_symbols st ∪ new
  /\ _error st' = _error st /\ stderr st' = stderr st.

(** The identifiers [new] fit the table of [st] without a resize: with
    them stored as well, the load factor is still within the threshold. *)
Definition roomy (st : state) (new : gset string) : Prop :=
  Z.of_nat (size (known_symbols st ∪ new))
  <= LOAD_FACTOR_THR * capacity (symbols st).

(** What reductions that never resize the table leave: a well-formed table
    of the same capacity, with the assigned identifiers added. *)
Definition quiet_post (st st' : state) (new : gset string) : Prop :=
  wf (symbols st') /\ known_symbols st' = known_symbols st ∪ new
  /\ capacity (symbols st') = capacity (symbols st).

(** The program of [n + 1] lines [k = 1.0], [k] being the three-letter keys
    number [0] to [n]. *)
Fixpoint assignments (n : nat) : statement_list :=
  match n with
  | O => SL_one (S_assignment (wide_key O) (E_FLOAT 1))
  | S n' => SL_more (assignments n') (S_assignment (wide_key n) (E_FLOAT 1))
  end.

(** Capacity, count, and the resize test of the table of a state reached
    with a value. *)
Definition table_shape {A} (r : A * state) : Z * Z * bool :=
  (capacity (symbols r.2), num_elems (symbols r.2),
   load_factor_exceeded (symbols r.2)).

(** The keys of the [hash_insert] calls that the reductions of a derivation
    make, in the order of the calls. *)
Fixpoint inserted (s : statement) : list string :=
  match s with
  | S_assignment ident _ => [ident]
  | S_if _ body | S_while _ body => inserted_list body
  | S_if_elif_else _ body elifs els =>
      inserted_list body ++ inserted_elif elifs ++ inserted_else els
  | S_if_elif _ body elifs => inserted_list body ++ inserted_elif elifs
  | S_if_else _ body els => inserted_list body ++ inserted_else els
  | S_break => []
  end
with inserted_list (sl : statement_list) : list string :=
  match sl with
  | SL_more sl' s => inserted_list sl' ++ inserted s
  | SL_one s => inserted s
  end
with inserted_elif (eb : elif_block) : list string :=
  match eb with
  | EB_more eb' _ body => inserted_elif eb' ++ inserted_list body
  | EB_one _ body => inserted_list body
  end
with inserted_else (el : else_block) : list string :=
  match el with
  | ELSE body => inserted_list body
  end.

(** The table of [st'] is the table of [st] after one [hash_insert] per key
    of [keys], in order. *)
Definition inserts_post (keys : list string) (st st' : state) : Prop :=
  exists vals,
    length vals = length keys
    /\ hash_inserts (zip keys vals) (symbols st) = Some (symbols st').

(** The calls a translation makes on its table, the value of the [i]-th
    call being the heap block number [i]: one insertion per assignment
    reduced, then the insertion of ["program"]. *)
Definition table_calls (p : statement_list) : list (operation nat) :=
  imap (fun i key => Insert key i) (inserted_list p ++ ["program"%string]).

(** The example of the specification: [x = 5.0], [y = x + 2.0], and an
    [if]/[else] assigning [x]. *)
Definition example_program : statement_list :=
  SL_more
    (SL_more (SL_one (S_assignment "x" (E_FLOAT 5)))
       (S_assignment "y" (E_binop (E_IDENTIFIER "x" 2) PLUS (E_FLOAT 2))))
    (S_if_else (E_binop (E_IDENTIFIER "y" 3) GT (E_FLOAT 5))
       (SL_one (S_assignment "x" (E_FLOAT 1)))
       (ELSE (SL_one (S_assignment "x" (E_FLOAT 0))))).

(** What any reduction leaves: a well-formed table, the flag still set if
    it was, an error stream that has only grown. *)
Definition run_post (st st' : state) : Prop :=
  wf (symbols st') /\ (_error st = 1 -> _error st' = 1)
  /\ exists more, stderr st' = stderr st ++ more.

(** The identifier tokens of an expression, each with its line. *)
Fixpoint occurrences (e : expression) : list (string * Z) :=
  match e with
  | E_paren e1 => occurrences e1
  | E_binop e1 _ e2 | E_juxtaposed e1 e2 => occurrences e1 ++ occurrences e2
  | E_INTEGER _ | E_FLOAT _ | E_BOOLEAN _ => []
  | E_IDENTIFIER str line => [(str, line)]
  end.

(** The text of the semantic diagnostic. *)
Definition invalid_symbol (str : string) (line : Z) : string :=
  "Error: Invalid Symbol (" +:+ str +:+ ") on line " +:+ fmt_d line +:+ NL.

(** The identifier tokens of an expression that the table [h] does not
    hold, in the order of the text. *)
Definition undefined_occurrences (h : hash string) (e : expression)
  : list (string * Z) :=
  filter (fun o => hash_contains h o.1 = false) (occurrences e).

(** The diagnostics they give rise to. *)
Definition undefined_diagnostics (h : hash string) (e : expression)
  : list string :=
  (fun o => invalid_symbol o.1 o.2) <$> undefined_occurrences h e.

(** A line of the error stream written by [expression: IDENTIFIER]. *)
Definition is_invalid_symbol (d : string) : Prop :=
  exists str line, d = invalid_symbol str line.

(** What the reductions of a part of a derivation leave, [ok] saying that
    its identifiers are defined before use and [new] being the identifiers
    it assigns: the table gains [new]; the flag and the error stream are
    untouched when [ok] holds, and otherwise the flag is set and
    invalid-symbol diagnostics have been appended. *)
Definition flow_post (ok : Prop) (new : gset string) (st st' : state) : Prop :=
  wf (symbols st') /\ known_symbols st' = known_symbols st ∪ new
  /\ exists more,
       stderr st' = stderr st ++ more /\ Forall is_invalid_symbol more
       /\ ((ok /\ more = [] /\ _error st' = _error st)
           \/ (~ ok /\ more <> [] /\ _error st' = 1)).

End TranslatorSpec.

(** ** Facts about the hash table *)

Module HashFacts.
Import Hash HashSpec.

Section facts.
Context {V : Type}.
Implicit Types (h : hash V) (c : chain V) (k key : string) (v value : V).

(** *** Chains *)

Lemma chain_find_list_to_map key c :
  chain_find key c = (list_to_map c : gmap string V) !! key.
Proof.
  induction c as [|[k v] c IH]; simpl; [by rewrite lookup_empty|].
  destruct (String.eqb_spec key k) as [->|Hne].
  - by rewrite lookup_insert_eq.
  - by rewrite lookup_insert_ne.
Qed.

Lemma chain_assign_keys key value c :
  (chain_assign key value c).*1 = c.*1.
Proof.
  induction c as [|[k v] c IH]; [done|]. cbn [chain_assign].
  destruct (String.eqb_spec key k); csimpl; [done|by rewrite IH].
Qed.

Lemma chain_assign_length key value c :
  length (chain_assign key value c) = length c.
Proof.
  induction c as [|[k v] c IH]; simpl; [done|].
  destruct (String.eqb key k); simpl; [done|by rewrite IH].
Qed.

Lemma chain_assign_list_to_map key value c :
  is_Some (chain_find key c) ->
  (list_to_map (chain_assign key value c) : gmap string V)
  = <[key := value]> (list_to_map c).
Proof.
  induction c as [|[k v] c IH]; simpl; [by intros [? ?]|].
  destruct (String.eqb_spec key k) as [->|Hne]; simpl; intros Hs.
  - by rewrite insert_insert_eq.
  - rewrite IH by done. by rewrite insert_insert_ne.
Qed.

(** *** The load factor test *)

Lemma load_factor_exceeded_spec h :
  0 < capacity h ->
  load_factor_exceeded h = true <-> LOAD_FACTOR_THR * capacity h < num_elems h.
Proof.
  intros Hc. unfold load_factor_exceeded, _hash_load_factor.
  rewrite negb_true_iff, <-not_true_iff_false, Qle_bool_iff.
  assert (Hq : (0 < inject_Z (capacity h))%Q).
  { change 0%Q with (inject_Z 0). rewrite <-Zlt_Qlt. exact Hc. }
  split.
  - intros Hn. apply Z.nle_gt. intros Hle. apply Hn.
    apply Qle_shift_div_r; [exact Hq|]. rewrite <-inject_Z_mult, <-Zle_Qle. lia.
  - intros Hlt Hle.
    apply (Qmult_le_compat_r _ _ (inject_Z (capacity h))) in Hle;
      [|by apply Qlt_le_weak].
    rewrite Qmult_comm, Qmult_div_r in Hle
      by (intros Hz; rewrite Hz in Hq; by apply Qlt_irrefl in Hq).
    rewrite <-inject_Z_mult, <-Zle_Qle in Hle. lia.
Qed.

Lemma load_factor_exceeded_false h :
  0 < capacity h ->
  load_factor_exceeded h = false <-> num_elems h <= LOAD_FACTOR_THR * capacity h.
Proof.
  intros Hc. rewrite <-not_true_iff_false, load_factor_exceeded_spec by done. lia.
Qed.

(** *** Replacing one bucket *)

Lemma concat_bucket_perm (tbl : list (chain V)) idx c :
  tbl !! idx = Some c -> concat tbl ≡ₚ c ++ others tbl idx.
Proof.
  intros Hi. rewrite <-(take_drop_middle tbl idx c) at 1 by done.
  unfold others. rewrite !concat_app, concat_cons. solve_Permutation.
Qed.

Lemma concat_insert_perm (tbl : list (chain V)) idx c c' :
  tbl !! idx = Some c -> concat (<[idx := c']> tbl) ≡ₚ c' ++ others tbl idx.
Proof.
  intros Hi. rewrite insert_take_drop by (by eapply lookup_lt_Some).
  unfold others. rewrite !concat_app, concat_cons. solve_Permutation.
Qed.

Lemma elem_of_concat (tbl : list (chain V)) (a : association V) :
  a ∈ concat tbl <-> exists c, a ∈ c /\ c ∈ tbl.
Proof.
  induction tbl as [|b tbl IH]; simpl.
  - split; [by intros ?%elem_of_nil|]. by intros (? & _ & ?%elem_of_nil).
  - rewrite elem_of_app, IH. split.
    + intros [?|(c & ? & ?)]; [exists b|exists c]; by rewrite elem_of_cons; auto.
    + intros (c & ? & [->|?]%elem_of_cons); eauto.
Qed.

Lemma elem_of_bucket (tbl : list (chain V)) idx c (a : association V) :
  tbl !! idx = Some c -> a ∈ c -> a ∈ concat tbl.
Proof.
  intros Hi Ha. apply elem_of_concat. exists c. split; [done|].
  by eapply list_elem_of_lookup_2.
Qed.

(** *** Reading a well-formed table *)

Lemma bucket_index_wf h key :
  wf h ->
  exists idx c, bucket_index h key = Some idx /\ table h !! idx = Some c
                /\ idx = Z.to_nat (_djb_hash key mod capacity h).
Proof.
  intros Hwf. pose proof (wf_cap_pos h Hwf) as Hc.
  unfold bucket_index. destruct (Z.eqb_spec (capacity h) 0) as [?|_]; [lia|].
  set (idx := Z.to_nat _).
  assert (Hlt : (idx < length (table h))%nat).
  { rewrite (wf_length h Hwf). subst idx.
    pose proof (Z.mod_pos_bound (_djb_hash key) (capacity h) Hc). lia. }
  destruct (lookup_lt_is_Some_2 _ _ Hlt) as [c Hcb]. by exists idx, c.
Qed.

Lemma bucket_nodup h idx c :
  wf h -> table h !! idx = Some c -> NoDup c.*1.
Proof.
  intros Hwf Hi. pose proof (wf_nodup h Hwf) as Hnd.
  rewrite (concat_bucket_perm _ _ _ Hi), fmap_app in Hnd.
  by apply NoDup_app in Hnd as [? _].
Qed.

Lemma hash_get_contents h key :
  wf h -> hash_get h key = contents h !! key.
Proof.
  intros Hwf. destruct (bucket_index_wf h key Hwf) as (idx & c & Hb & Hi & Hidx).
  unfold hash_get. rewrite Hb. simpl. rewrite Hi. simpl.
  rewrite chain_find_list_to_map. apply option_eq. intros v.
  unfold contents.
  rewrite <-(elem_of_list_to_map c) by (by eapply bucket_nodup).
  rewrite <-elem_of_list_to_map by (by apply wf_nodup).
  split; [by eapply elem_of_bucket|].
  intros (c' & Hin & [j Hj]%list_elem_of_lookup)%elem_of_concat.
  pose proof (wf_bucket h Hwf j c' key v Hj Hin) as Hjk.
  rewrite <-Hidx in Hjk. subst j. by simplify_eq.
Qed.

Lemma hash_contains_contents h key :
  wf h -> hash_contains h key = bool_decide (is_Some (contents h !! key)).
Proof.
  intros Hwf. rewrite <-hash_get_contents by done.
  destruct (bucket_index_wf h key Hwf) as (idx & c & Hb & Hi & Hidx).
  unfold hash_contains, hash_get. rewrite Hb. simpl. rewrite Hi. simpl.
  destruct (chain_find key c).
  - by rewrite bool_decide_eq_true_2 by eauto.
  - by rewrite bool_decide_eq_false_2 by (by intros [? ?]).
Qed.

Lemma size_contents h :
  wf h -> size (contents h) = length (concat (table h)).
Proof. intros Hwf. apply map_size_list_to_map, (wf_nodup h Hwf). Qed.

(** *** The insertion proper *)

Lemma insert_no_resize_spec h key value :
  wf h ->
  exists h', insert_no_resize h key value = Some h' /\ wf h'
    /\ capacity h' = capacity h
    /\ contents h' = <[key := value]> (contents h)
    /\ num_elems h' = (if hash_contains h key then num_elems h
                       else (num_elems h + 1) mod UINT_MOD).
Proof.
  intros Hwf. destruct (bucket_index_wf h key Hwf) as (idx & c & Hb & Hi & Hidx).
  pose proof (lookup_lt_Some _ _ _ Hi) as Hlt.
  pose proof (wf_nodup h Hwf) as Hnd.
  pose proof (hash_get_contents h key Hwf) as Hget.
  unfold hash_get in Hget. rewrite Hb in Hget. simpl in Hget.
  rewrite Hi in Hget. simpl in Hget.
  unfold insert_no_resize, hash_contains. rewrite Hb. simpl. rewrite Hi. simpl.
  destruct (chain_find key c) as [v0|] eqn:Hfind.
  - (* the key is in its chain: the value is assigned in place *)
    eexists. split; [done|].
    pose proof (concat_insert_perm (table h) idx c
                  (chain_assign key value c) Hi) as Hperm.
    pose proof (concat_bucket_perm (table h) idx c Hi) as Hperm0.
    assert (Hkeys : (concat (<[idx:=chain_assign key value c]> (table h))).*1
                    ≡ₚ (concat (table h)).*1).
    { rewrite Hperm, Hperm0, !fmap_app, chain_assign_keys. done. }
    split; [split; simpl|split; [done|split; [|done]]].
    + by apply wf_cap_pos.
    + by apply wf_cap_uint.
    + rewrite length_insert. by apply wf_length.
    + intros i c2 k2 v2 Hi2 Hin2.
      rewrite list_lookup_insert in Hi2. case_decide as Hd.
      * destruct Hd as [<- _]. simplify_eq.
        assert (Hk2 : k2 ∈ c.*1).
        { rewrite <-(chain_assign_keys key value).
          apply list_elem_of_fmap. by exists (k2, v2). }
        apply list_elem_of_fmap in Hk2 as ([k3 v3] & -> & Hin3).
        by eapply (wf_bucket h Hwf).
      * by eapply (wf_bucket h Hwf).
    + by rewrite Hkeys.
    + rewrite (wf_count h Hwf). do 2 f_equal.
      by rewrite Hperm, Hperm0, !length_app, chain_assign_length.
    + unfold contents. cbn [table].
      rewrite (list_to_map_proper _ _ ltac:(by rewrite Hkeys) Hperm).
      rewrite (list_to_map_proper _ _ Hnd Hperm0).
      rewrite (list_to_map_app (chain_assign key value c)).
      rewrite (list_to_map_app c), chain_assign_list_to_map by eauto.
      by rewrite insert_union_l.
  - (* a new association at the head of the chain *)
    eexists. split; [done|].
    pose proof (concat_insert_perm (table h) idx c ((key, value) :: c) Hi)
      as Hperm.
    pose proof (concat_bucket_perm (table h) idx c Hi) as Hperm0.
    assert (Hperm1 : concat (<[idx:=(key, value) :: c]> (table h))
                     ≡ₚ (key, value) :: concat (table h)).
    { rewrite Hperm, Hperm0. done. }
    assert (Hnew : key ∉ (concat (table h)).*1).
    { apply not_elem_of_list_to_map. by symmetry. }
    split; [split; simpl|split; [done|split; [|done]]].
    + by apply wf_cap_pos.
    + by apply wf_cap_uint.
    + rewrite length_insert. by apply wf_length.
    + intros i c2 k2 v2 Hi2 Hin2.
      rewrite list_lookup_insert in Hi2. case_decide as Hd.
      * destruct Hd as [<- _]. simplify_eq.
        apply elem_of_cons in Hin2 as [?|?]; [by simplify_eq|].
        by eapply (wf_bucket h Hwf).
      * by eapply (wf_bucket h Hwf).
    + rewrite Hperm1. csimpl. by apply NoDup_cons.
    + rewrite (wf_count h Hwf), Hperm1. simpl length.
      rewrite Z.add_mod_idemp_l by done. f_equal. lia.
    + unfold contents. cbn [table].
      assert (Hnd1 : NoDup (concat (<[idx:=(key, value) :: c]> (table h))).*1).
      { rewrite Hperm1. csimpl. by apply NoDup_cons. }
      by rewrite (list_to_map_proper _ _ Hnd1 Hperm1).
Qed.

(** *** Re-hashing and the complete insertion *)

Lemma num_elems_le_size h :
  wf h -> 0 <= num_elems h <= Z.of_nat (size (contents h)).
Proof.
  intros Hwf. rewrite (size_contents h Hwf), (wf_count h Hwf).
  pose proof (Z.mod_pos_bound (Z.of_nat (length (concat (table h)))) UINT_MOD
                eq_refl).
  split; [lia|]. apply Z.mod_le; [lia|done].
Qed.

Lemma size_put_le (m : gmap string V) a : (size (put m a) <= S (size m))%nat.
Proof.
  unfold put. rewrite map_size_insert. destruct (m !! a.1); simpl; lia.
Qed.

Lemma foldl_concat {A B} (f : A -> B -> A) (a : A) (ls : list (list B)) :
  foldl (fun acc l => foldl f acc l) a ls = foldl f a (concat ls).
Proof.
  revert a. induction ls as [|l ls IH]; intros a; simpl; [done|].
  by rewrite foldl_app, IH.
Qed.

Lemma foldl_put_nodup (l : chain V) (m : gmap string V) :
  NoDup l.*1 -> foldl put m l = list_to_map l ∪ m.
Proof.
  revert m. induction l as [|[k v] l IH]; intros m; csimpl.
  - by rewrite (left_id_L ∅ (∪)).
  - intros [Hk Hnd]%NoDup_cons. rewrite IH by done. unfold put. simpl.
    rewrite <-insert_union_r, insert_union_l; [done|].
    by apply not_elem_of_list_to_map.
Qed.

Section rehash.
Variable ins : hash V -> string -> V -> option (hash V).
Variable c0 : Z.
Hypothesis ins_spec : forall h key value,
  wf h -> c0 <= capacity h ->
  exists h', ins h key value = Some h' /\ insert_post h key value h'.

Lemma rehash_spec (l : chain V) : forall h0,
  wf h0 -> c0 <= capacity h0 ->
  exists h1,
    foldl (fun acc cur => h' ← acc; ins h' cur.1 cur.2) (Some h0) l = Some h1
    /\ wf h1 /\ contents h1 = foldl put (contents h0) l
    /\ capacity h0 <= capacity h1
    /\ (Z.of_nat (size (contents h0)) + Z.of_nat (length l)
          <= LOAD_FACTOR_THR * capacity h0 + 1 ->
        capacity h1 = capacity h0).
Proof.
  induction l as [|a l IH]; intros h0 Hwf Hc0; simpl.
  - exists h0. split; [done|]. split; [done|]. split; [done|]. split; [lia|done].
  - destruct (ins_spec h0 a.1 a.2 Hwf Hc0)
      as (h' & -> & Hwf' & Hcont & Hle & Hsame & _).
    destruct (IH h' Hwf' ltac:(lia)) as (h1 & Hf & Hwf1 & Hcont1 & Hle1 & Hsame1).
    exists h1. split; [done|]. split; [done|]. split.
    { rewrite Hcont1, Hcont. done. }
    split; [lia|]. intros Hsz.
    assert (Hnot : load_factor_exceeded h0 = false).
    { apply load_factor_exceeded_false; [by apply wf_cap_pos|].
      pose proof (num_elems_le_size h0 Hwf). lia. }
    specialize (Hsame Hnot). rewrite Hsame in *. rewrite Hsame1; [done|].
    rewrite Hcont. pose proof (size_put_le (contents h0) a). unfold put in *. lia.
Qed.
End rehash.

Lemma concat_replicate_nil (n : nat) : concat (replicate n ([] : chain V)) = [].
Proof. induction n as [|n IH]; simpl; [done|exact IH]. Qed.

Lemma _hash_table_init_wf cap :
  0 < cap < UINT_MOD ->
  wf (_hash_table_init (V:=V) cap) /\ contents (_hash_table_init (V:=V) cap) = ∅.
Proof.
  intros [Hpos Hlt]. unfold contents. simpl. rewrite concat_replicate_nil.
  split; [|done]. split; simpl; try done.
  - by rewrite length_replicate.
  - intros i c k v [-> _]%lookup_replicate []%elem_of_nil.
  - rewrite concat_replicate_nil. constructor.
  - by rewrite concat_replicate_nil.
Qed.

Lemma log2_capacity_bound h : wf h -> Z.log2 (capacity h) < 32.
Proof.
  intros Hwf. apply Z.log2_lt_pow2; [by apply wf_cap_pos|by apply wf_cap_uint].
Qed.

Lemma hash_insert_depth_spec (depth : nat) : forall h key value,
  wf h -> 33 <= Z.of_nat depth + Z.log2 (capacity h) ->
  exists h', hash_insert_depth depth h key value = Some h'
             /\ insert_post h key value h'.
Proof.
  induction depth as [|d IH]; intros h key value Hwf Hdepth.
  { pose proof (log2_capacity_bound h Hwf). lia. }
  pose proof (wf_cap_pos h Hwf) as Hpos.
  pose proof (wf_cap_uint h Hwf) as Huint.
  cbn [hash_insert_depth].
  destruct (load_factor_exceeded h) eqn:Hlf.
  - (* the table is resized first *)
    pose proof (proj1 (load_factor_exceeded_spec h Hpos) Hlf) as Hgt.
    pose proof (num_elems_le_size h Hwf) as Hsz.
    assert (Hn : num_elems h < UINT_MOD).
    { rewrite (wf_count h Hwf). by apply Z.mod_pos_bound. }
    assert (Hcap2 : (capacity h * 2) mod UINT_MOD = 2 * capacity h)
      by (rewrite Z.mod_small; unfold LOAD_FACTOR_THR, UINT_MOD in *; lia).
    unfold _hash_resize_with. rewrite foldl_concat.
    rewrite Hcap2.
    destruct (_hash_table_init_wf (2 * capacity h)) as [Hwf0 Hcont0];
      [unfold LOAD_FACTOR_THR, UINT_MOD in *; lia|].
    destruct (rehash_spec (hash_insert_depth d) (2 * capacity h)) with
      (l := concat (table h)) (h0 := _hash_table_init (V:=V) (2 * capacity h))
      as (h1 & Hfold & Hwf1 & Hcont1 & Hle1 & Hsame1); [|done|simpl; lia|].
    { intros h2 k2 v2 Hwf2 Hc2. apply IH; [done|].
      pose proof (Z.log2_le_mono _ _ Hc2) as Hmono.
      rewrite Z.log2_double in Hmono by done. lia. }
    rewrite Hfold. simpl.
    destruct (insert_no_resize_spec h1 key value Hwf1)
      as (h' & Hins & Hwf' & Hcap' & Hcont' & _).
    exists h'. split; [done|]. split; [done|].
    assert (Hsame : contents h1 = contents h).
    { rewrite Hcont1, Hcont0, foldl_put_nodup by (by apply wf_nodup).
      by rewrite (right_id_L ∅ (∪)). }
    split; [by rewrite Hcont', Hsame|].
    simpl in Hle1. split; [lia|]. split; [intros; congruence|].
    split; [|intros _; lia].
    intros _ Hsmall. rewrite Hcap'. simpl in Hsame1. apply Hsame1.
    rewrite Hcont0, map_size_empty, <-size_contents by done.
    unfold LOAD_FACTOR_THR. lia.
  - (* no resize *)
    simpl.
    destruct (insert_no_resize_spec h key value Hwf)
      as (h' & Hins & Hwf' & Hcap' & Hcont' & _).
    exists h'. split; [done|]. split; [done|]. split; [done|].
    split; [lia|]. split; [done|]. split; intros; congruence.
Qed.

Lemma hash_insert_spec h key value :
  wf h -> exists h', hash_insert h key value = Some h'
                     /\ insert_post h key value h'.
Proof.
  intros Hwf. apply hash_insert_depth_spec; [done|].
  pose proof (Z.log2_nonneg (capacity h)). unfold MAX_DEPTH. lia.
Qed.

Lemma hash_create_wf : wf (hash_create (V:=V)) /\ contents (hash_create (V:=V)) = ∅.
Proof. apply _hash_table_init_wf. done. Qed.

(** *** Sequences of insertions *)

Lemma hash_inserts_spec (ops : chain V) h :
  wf h ->
  exists h', hash_inserts ops h = Some h' /\ wf h'
             /\ contents h' = foldl put (contents h) ops.
Proof.
  intros Hwf.
  destruct (rehash_spec hash_insert 0) with (l := ops) (h0 := h)
    as (h' & Hf & Hwf' & Hcont & _); [|done|..].
  - intros h2 k2 v2 Hwf2 _. by apply hash_insert_spec.
  - pose proof (wf_cap_pos h Hwf). lia.
  - by exists h'.
Qed.

Lemma hash_inserts_wf (ops : chain V) h :
  hash_inserts ops hash_create = Some h -> wf h.
Proof.
  intros Hrun.
  destruct (hash_inserts_spec ops hash_create) as (h' & Hrun' & Hwf & _);
    [apply hash_create_wf|].
  rewrite Hrun in Hrun'. by injection Hrun' as <-.
Qed.

Lemma foldl_put_snoc (m : gmap string V) (l : chain V) a :
  foldl put m (l ++ [a]) = put (foldl put m l) a.
Proof. by rewrite foldl_app. Qed.

(** *** Inserting a key that is already stored *)


(** *** The iterator *)

Lemma _skip_empty_spec h (n : nat) : forall i,
  length (table h) = Z.to_nat (capacity h) ->
  0 <= i -> n = Z.to_nat (capacity h - i) ->
  let r := _skip_empty n h i in
  i <= r
  /\ concat (drop (Z.to_nat i) (table h)) = concat (drop (Z.to_nat r) (table h))
  /\ (r < capacity h ->
      exists a c, table h !! Z.to_nat r = Some (a :: c)).
Proof.
  induction n as [|n IH]; intros i Hlen Hi Hn; simpl.
  - split; [lia|]. split; [done|]. lia.
  - assert (Hlt : i < capacity h) by lia.
    rewrite (proj2 (Z.ltb_lt _ _) Hlt). simpl.
    destruct (lookup_lt_is_Some_2 (table h) (Z.to_nat i)) as [b Hb]; [lia|].
    rewrite Hb. destruct b as [|a c].
    + destruct (IH (i + 1) Hlen ltac:(lia) ltac:(lia)) as (Hle & Hcat & Hnext).
      split; [lia|]. split; [|done].
      rewrite <-Hcat, (drop_S _ _ _ Hb). simpl.
      by replace (Z.to_nat (i + 1)) with (S (Z.to_nat i)) by lia.
    + split; [lia|]. split; [done|]. intros _. by exists a, c.
Qed.

Lemma _update_hash_iter_next_spec (it : hash_iter V) :
  length (table (iter_hash it)) = Z.to_nat (capacity (iter_hash it)) ->
  -1 <= next_idx it ->
  let it' := _update_hash_iter_next it in
  iter_hash it' = iter_hash it
  /\ -1 <= next_idx it'
  /\ remaining it' = tail (next it)
       ++ concat (drop (Z.to_nat (next_idx it + 1)) (table (iter_hash it)))
  /\ (next it' = [] -> remaining it' = []).
Proof.
  intros Hlen Hidx. unfold _update_hash_iter_next.
  change (match next it with [] => [] | _ :: rest => rest end)
    with (tail (next it)).
  destruct (tail (next it)) as [|b rest] eqn:Htl.
  - set (h := iter_hash it) in *. set (start := next_idx it + 1).
    destruct (_skip_empty_spec h (Z.to_nat (capacity h - start)) start
                Hlen ltac:(lia) eq_refl) as (Hle & Hcat & Hnext).
    set (r := _skip_empty (Z.to_nat (capacity h - start)) h start) in *.
    destruct (Z.ltb_spec r (capacity h)) as [Hlt|Hge]; unfold remaining; simpl.
    + destruct (Hnext Hlt) as (a & c & Hb). rewrite Hb. simpl.
      split; [done|]. split; [lia|]. split; [|done].
      rewrite Hcat, (drop_S _ _ _ Hb). simpl.
      by replace (Z.to_nat (r + 1)) with (S (Z.to_nat r)) by lia.
    + fold h. fold start. rewrite Hcat, drop_ge by lia. done.
  - unfold remaining. simpl. done.
Qed.

Lemma iter_drain_spec (n : nat) : forall it : hash_iter V,
  length (table (iter_hash it)) = Z.to_nat (capacity (iter_hash it)) ->
  -1 <= next_idx it ->
  (next it = [] -> remaining it = []) ->
  (length (remaining it) <= n)%nat ->
  (iter_drain n it).1 = remaining it
  /\ hash_iter_has_next (iter_drain n it).2 = false.
Proof.
  induction n as [|n IH]; intros it Hlen Hidx Hex Hn.
  - simpl. destruct (remaining it) as [|? ?] eqn:Hrem; [|simpl in Hn; lia].
    split; [done|]. unfold remaining in Hrem.
    apply app_eq_nil in Hrem as [Hnx _]. unfold hash_iter_has_next.
    by rewrite Hnx.
  - cbn [iter_drain]. unfold hash_iter_has_next, hash_iter_next.
    destruct (next it) as [|a rest] eqn:Hnx.
    + simpl. rewrite Hnx. split; [|done]. symmetry. by apply Hex.
    + destruct (_update_hash_iter_next_spec it Hlen Hidx)
        as (Hh & Hidx' & Hrem' & Hex').
      rewrite Hnx in Hrem'. simpl in Hrem'.
      assert (Hrem : remaining it = a :: remaining (_update_hash_iter_next it)).
      { rewrite Hrem'. unfold remaining. by rewrite Hnx. }
      rewrite Hrem in Hn. simpl in Hn.
      destruct (IH (_update_hash_iter_next it)) as [Hd Hlast];
        [by rewrite Hh|done|done|lia|].
      simpl. by rewrite Hd, Hrem.
Qed.

Lemma hash_iter_create_remaining h :
  length (table h) = Z.to_nat (capacity h) ->
  let it := hash_iter_create h in
  iter_hash it = h /\ -1 <= next_idx it
  /\ remaining it = concat (table h)
  /\ (next it = [] -> remaining it = []).
Proof.
  intros Hlen. unfold hash_iter_create.
  destruct (_update_hash_iter_next_spec
              {| iter_hash := h; next := []; next_idx := -1 |})
    as (Hh & Hidx & Hrem & Hex); [done|simpl; lia|].
  simpl in *. split; [done|]. split; [done|]. split; [|done].
  by rewrite Hrem.
Qed.

(** C9: draining a fresh iterator enumerates the table in a fixed order,
    the buckets by ascending index and each chain from its head, that is
    [concat (table h)], and leaves the iterator exhausted; hence any two
    passes over the same table yield the same keys in the same order. *)
Theorem iteration_order_fixed h (n1 n2 : nat) :
  wf h -> capacity h <= INT_MAX ->
  (length (concat (table h)) <= n1)%nat ->
  (length (concat (table h)) <= n2)%nat ->
  (iter_drain n1 (hash_iter_create h)).1 = concat (table h)
  /\ hash_iter_has_next (iter_drain n1 (hash_iter_create h)).2 = false
  /\ (iter_drain n1 (hash_iter_create h)).1.*1
     = (iter_drain n2 (hash_iter_create h)).1.*1.
Proof.
  intros Hwf _ Hn1 Hn2. pose proof (wf_length h Hwf) as Hlen.
  destruct (hash_iter_create_remaining h Hlen) as (Hh & Hidx & Hrem & Hex).
  destruct (iter_drain_spec n1 (hash_iter_create h)) as [Hd1 Hlast1];
    [by rewrite Hh|done|done|by rewrite Hrem|].
  destruct (iter_drain_spec n2 (hash_iter_create h)) as [Hd2 _];
    [by rewrite Hh|done|done|by rewrite Hrem|].
  split; [by rewrite Hd1|]. split; [done|]. by rewrite Hd1, Hd2.
Qed.

End facts.

(** *** A table filled past the threshold *)







(** *** A small table and its enumeration *)

Lemma small_table_run : hash_inserts small_ops hash_create = Some small_table.
Proof. vm_compute. reflexivity. Qed.

Example small_table_drain :
  (iter_drain 2 (hash_iter_create small_table)).1
  = [("x"%string, 3%nat); ("y"%string, 2%nat)].
Proof. vm_compute. reflexivity. Qed.

Lemma iteration_order_fixed_witness :
  wf small_table /\ capacity small_table <= INT_MAX
  /\ (iter_drain 2 (hash_iter_create small_table)).1
     = concat (table small_table)
  /\ hash_iter_has_next (iter_drain 2 (hash_iter_create small_table)).2 = false
  /\ (iter_drain 2 (hash_iter_create small_table)).1.*1
     = (iter_drain 5 (hash_iter_create small_table)).1.*1.
Proof.
  assert (Hwf : wf small_table) by exact (hash_inserts_wf _ _ small_table_run).
  assert (Hcap : capacity small_table <= INT_MAX) by (vm_compute; discriminate).
  split; [exact Hwf|]. split; [exact Hcap|].
  apply (iteration_order_fixed small_table 2 5 Hwf Hcap); vm_compute; lia.
Defined.

End HashFacts.

(** ** Facts about the frees of the hash table *)

Module HeapFacts.
Import Hash HashSpec HashFacts.

Section heap_facts.
Context `{Countable V}.
Implicit Types (h : hash V) (live : gset V) (c : chain V) (k key : string)
  (v value : V).

(** *** [free] *)

Lemma free_live v live : v ∈ live -> free v live = Some (live ∖ {[ v ]}).
Proof. intros Hin. unfold free. by rewrite decide_True. Qed.

Lemma free_dead v live : v ∉ live -> free v live = None.
Proof. intros Hin. unfold free. by rewrite decide_False. Qed.

Lemma free_subseteq v live live' : free v live = Some live' -> live' ⊆ live.
Proof. unfold free. case_decide; [|done]. intros [= <-]. set_solver. Qed.

(** *** An insertion that does not resize frees nothing *)

Lemma hash_insert_mem_depth_S (d : nat) h live key value :
  hash_insert_mem_depth (S d) h live key value
  = (st1 ← (if load_factor_exceeded h
            then _hash_resize_mem d h live else Some (h, live));
     h2 ← insert_no_resize st1.1 key value;
     Some (h2, st1.2)).
Proof. done. Qed.

Lemma hash_insert_mem_depth_no_resize (d : nat) h live key value :
  load_factor_exceeded h = false ->
  hash_insert_mem_depth (S d) h live key value
  = (h' ← insert_no_resize h key value; Some (h', live)).
Proof. intros Hlf. rewrite hash_insert_mem_depth_S. by rewrite Hlf. Qed.

Lemma hash_insert_mem_no_resize h live key value :
  load_factor_exceeded h = false ->
  hash_insert_mem h live key value
  = (h' ← hash_insert h key value; Some (h', live)).
Proof.
  intros Hlf. unfold hash_insert_mem, hash_insert, MAX_DEPTH.
  rewrite hash_insert_mem_depth_no_resize by done. simpl. by rewrite Hlf.
Qed.

(** *** The table a call leaves *)

Lemma rehash_mem_none
    (ins : hash V -> gset V -> string -> V -> option (hash V * gset V))
    (l : chain V) :
  foldl (fun acc tmp =>
           st ← acc; st1 ← ins st.1 st.2 tmp.1 tmp.2;
           live2 ← _association_free tmp st1.2; Some (st1.1, live2))
        None l = None.
Proof. induction l as [|a l IH]; simpl; [done|exact IH]. Qed.

Lemma rehash_mem_table
    (insm : hash V -> gset V -> string -> V -> option (hash V * gset V))
    (ins : hash V -> string -> V -> option (hash V)) :
  (forall h live key value st,
      insm h live key value = Some st -> ins h key value = Some st.1) ->
  forall (l : chain V) a b,
    foldl (fun acc tmp =>
             st ← acc; st1 ← insm st.1 st.2 tmp.1 tmp.2;
             live2 ← _association_free tmp st1.2; Some (st1.1, live2))
          (Some a) l = Some b ->
    foldl (fun acc cur => h' ← acc; ins h' cur.1 cur.2) (Some a.1) l
    = Some b.1.
Proof.
  intros Hins. induction l as [|x l IH]; intros a b; simpl.
  - by intros [= <-].
  - destruct (insm a.1 a.2 x.1 x.2) as [st1|] eqn:E; simpl;
      [|by rewrite rehash_mem_none].
    rewrite (Hins _ _ _ _ _ E). simpl.
    destruct (_association_free x st1.2) as [live2|]; simpl;
      [|by rewrite rehash_mem_none].
    intros Hf. by apply IH in Hf.
Qed.

(** Whenever a call with its frees is defined, the table it leaves is the
    one the table functions give. *)
Lemma hash_insert_mem_depth_table (d : nat) : forall h live key value st,
  hash_insert_mem_depth d h live key value = Some st ->
  hash_insert_depth d h key value = Some st.1.
Proof.
  induction d as [|d IH]; intros h live key value st; simpl; [done|].
  destruct (load_factor_exceeded h).
  - unfold _hash_resize_mem_with, _hash_resize_with. rewrite !foldl_concat.
    destruct (foldl _ (Some (_, live)) _) as [st1|] eqn:E; simpl; [|done].
    apply (rehash_mem_table _ _ IH) in E. simpl in E. rewrite E. simpl.
    destruct (insert_no_resize st1.1 key value); simpl; [|done].
    by intros [= <-].
  - simpl. destruct (insert_no_resize h key value); simpl; [|done].
    by intros [= <-].
Qed.

Lemma hash_insert_mem_table h live key value st :
  hash_insert_mem h live key value = Some st ->
  hash_insert h key value = Some st.1.
Proof. apply hash_insert_mem_depth_table. Qed.

Lemma hash_remove_mem_table h live key st :
  hash_remove_mem h live key = Some st -> hash_remove h key = Some st.1.
Proof.
  unfold hash_remove_mem, hash_remove.
  destruct (bucket_index h key) as [idx|]; simpl; [|done].
  destruct (table h !! idx) as [c|]; simpl; [|done].
  destruct (chain_find key c) as [v0|]; [|by intros [= <-]].
  destruct (_association_free _ _); simpl; [|done]. by intros [= <-].
Qed.

Lemma hash_run_mem_snoc (ops : list (operation V)) op h live :
  hash_run_mem (ops ++ [op]) h live
  = (st ← hash_run_mem ops h live;
     match op with
     | Insert key value => hash_insert_mem st.1 st.2 key value
     | Remove key => hash_remove_mem st.1 st.2 key
     end).
Proof. unfold hash_run_mem. by rewrite foldl_app. Qed.

Lemma hash_run_mem_table (ops : list (operation V)) h live st :
  hash_run_mem ops h live = Some st -> hash_run ops h = Some st.1.
Proof.
  revert st. induction ops as [|op ops IH] using rev_ind; intros st.
  - by intros [= <-].
  - rewrite hash_run_mem_snoc. unfold hash_run. rewrite foldl_app. simpl.
    destruct (hash_run_mem ops h live) as [st1|]; simpl; [|done].
    fold (hash_run ops h). rewrite (IH st1 eq_refl). simpl.
    destruct op as [key value|key].
    + apply hash_insert_mem_table.
    + apply hash_remove_mem_table.
Qed.

(** *** Re-hashing a table that owns its values *)

Lemma rehash_mem_spec (d : nat) (l : chain V) : forall h0 live,
  wf h0 ->
  Z.of_nat (size (contents h0)) + Z.of_nat (length l)
    <= LOAD_FACTOR_THR * capacity h0 + 1 ->
  NoDup l.*2 -> (forall v, v ∈ l.*2 -> v ∈ live) ->
  exists h1,
    foldl (fun acc tmp =>
             st ← acc;
             st1 ← hash_insert_mem_depth (S d) st.1 st.2 tmp.1 tmp.2;
             live2 ← _association_free tmp st1.2; Some (st1.1, live2))
          (Some (h0, live)) l
    = Some (h1, live ∖ list_to_set l.*2)
    /\ wf h1 /\ contents h1 = foldl put (contents h0) l
    /\ capacity h1 = capacity h0.
Proof.
  induction l as [|[k v] l IH]; intros h0 live Hwf Hsize Hnd Hlive.
  - exists h0. simpl. split; [do 2 f_equal; set_solver|done].
  - pose proof (wf_cap_pos h0 Hwf) as Hpos.
    pose proof (num_elems_le_size h0 Hwf) as Hn.
    assert (Hlf : load_factor_exceeded h0 = false).
    { apply load_factor_exceeded_false; [done|]. simpl in Hsize. lia. }
    destruct (insert_no_resize_spec h0 k v Hwf)
      as (h' & Hins & Hwf' & Hcap' & Hcont' & _).
    cbn [foldl fmap list_fmap] in *.
    apply NoDup_cons in Hnd as [Hv Hnd].
    cbn [mbind option_bind fst snd].
    rewrite hash_insert_mem_depth_no_resize, Hins by done.
    cbn [mbind option_bind fst snd]. unfold _association_free at 2.
    cbn [snd]. rewrite free_live by set_solver. cbn [mbind option_bind].
    destruct (IH h' (live ∖ {[ v ]})) as (h1 & Hf & Hwf1 & Hcont1 & Hcap1).
    + done.
    + rewrite Hcap', Hcont'. pose proof (size_put_le (contents h0) (k, v)) as Hs.
      unfold put in Hs. simpl in Hs, Hsize. lia.
    + done.
    + intros v' Hv'. apply elem_of_difference. split; [set_solver|].
      intros ->%elem_of_singleton. done.
    + exists h1. split.
      { rewrite Hf. do 2 f_equal. set_solver. }
      split; [done|]. split; [by rewrite Hcont1, Hcont'|congruence].
Qed.

Lemma _hash_resize_mem_spec (d : nat) h live :
  wf h -> 2 * capacity h < UINT_MOD ->
  Z.of_nat (length (concat (table h))) <= 10 * capacity h + 1 ->
  owns h live ->
  exists h1,
    _hash_resize_mem (S d) h live = Some (h1, live ∖ list_to_set (values h))
    /\ wf h1 /\ contents h1 = contents h
    /\ capacity h1 = 2 * capacity h.
Proof.
  intros Hwf Hcap Hsmall [Hnd Hlive]. pose proof (wf_cap_pos h Hwf) as Hpos.
  unfold _hash_resize_mem, _hash_resize_mem_with. rewrite foldl_concat.
  rewrite (Z.mul_comm (capacity h) 2), Z.mod_small by lia.
  destruct (_hash_table_init_wf (V:=V) (2 * capacity h)) as [Hwf0 Hcont0];
    [lia|].
  destruct (rehash_mem_spec d (concat (table h))
              (_hash_table_init (2 * capacity h)) live Hwf0)
    as (h1 & Hf & Hwf1 & Hcont1 & Hcap1); [| done | done |].
  { rewrite Hcont0, map_size_empty. simpl. unfold LOAD_FACTOR_THR. lia. }
  exists h1. split; [done|]. split; [done|]. split; [|done].
  rewrite Hcont1, Hcont0, foldl_put_nodup by (by apply wf_nodup).
  by rewrite (right_id_L ∅ (∪)).
Qed.


(** *** [hash_free] *)

Lemma free_all_none (l : chain V) :
  foldl (fun acc cur => live1 ← acc; _association_free cur live1) None l
  = None.
Proof. induction l as [|a l IH]; simpl; [done|exact IH]. Qed.

Lemma free_all_owned (l : chain V) : forall live,
  NoDup l.*2 -> (forall v, v ∈ l.*2 -> v ∈ live) ->
  foldl (fun acc cur => live1 ← acc; _association_free cur live1)
        (Some live) l
  = Some (live ∖ list_to_set l.*2).
Proof.
  induction l as [|[k v] l IH]; intros live Hnd Hlive; simpl.
  - f_equal. set_solver.
  - apply NoDup_cons in Hnd as [Hv Hnd]. unfold _association_free at 2.
    simpl. rewrite free_live by set_solver. rewrite IH; [|done|].
    + f_equal. set_solver.
    + intros v' Hv'. apply elem_of_difference. split; [set_solver|].
      intros ->%elem_of_singleton. done.
Qed.

Lemma free_all_dead (l : chain V) v : forall live,
  v ∈ l.*2 -> v ∉ live ->
  foldl (fun acc cur => live1 ← acc; _association_free cur live1)
        (Some live) l
  = None.
Proof.
  induction l as [|[k v0] l IH]; intros live Hin Hdead; simpl in *.
  - by apply elem_of_nil in Hin.
  - unfold _association_free at 2. simpl.
    destruct (free v0 live) as [live1|] eqn:E; [|apply free_all_none].
    apply elem_of_cons in Hin as [->|Hin].
    + by rewrite free_dead in E.
    + apply IH; [done|]. apply free_subseteq in E. set_solver.
Qed.

Lemma hash_free_mem_owned h live :
  owns h live -> hash_free_mem h live = Some (live ∖ list_to_set (values h)).
Proof.
  intros [Hnd Hlive]. unfold hash_free_mem. rewrite foldl_concat.
  by apply free_all_owned.
Qed.

Lemma hash_free_mem_dead h live v :
  v ∈ values h -> v ∉ live -> hash_free_mem h live = None.
Proof.
  intros Hin Hdead. unfold hash_free_mem. rewrite foldl_concat.
  by apply (free_all_dead _ v).
Qed.

(** *** Inserting a key that is already stored *)


End heap_facts.


(** *** Runs that resize *)

Lemma run_defined (r : option (hash nat * gset nat)) (n : nat) :
  (size ∘ snd <$> r) = Some n -> r = Some (table_after r, live_after r).
Proof. destruct r as [[h live]|]; [done|discriminate]. Qed.

Lemma once_resized_run :
  once_resized = Some (table_after once_resized, live_after once_resized).
Proof. apply (run_defined _ 641%nat). vm_compute. reflexivity. Qed.

Lemma once_resized_size :
  capacity (table_after once_resized) = 256
  /\ num_elems (table_after once_resized) = 642.
Proof. split; vm_compute; reflexivity. Qed.

Lemma once_resized_freed :
  forallb (returned_but_freed once_resized) (seq 0 641) = true.
Proof. vm_compute. reflexivity. Qed.

Lemma returned_but_freed_spec (r : option (hash nat * gset nat)) (i : nat) :
  returned_but_freed r i = true ->
  hash_get (table_after r) (wide_key i) = Some i /\ i ∉ live_after r.
Proof.
  unfold returned_but_freed.
  rewrite andb_true_iff, negb_true_iff, bool_decide_eq_true,
    bool_decide_eq_false. done.
Qed.

Lemma twice_resized_undefined :
  hash_run_mem (fresh_inserts 0 1282) hash_create (blocks 1282) = None.
Proof. vm_compute. reflexivity. Qed.

Lemma twice_loaded_run :
  twice_loaded = Some (table_after twice_loaded, live_after twice_loaded).
Proof. apply (run_defined _ 641%nat). vm_compute. reflexivity. Qed.

Lemma twice_loaded_size :
  capacity (table_after twice_loaded) = 256
  /\ num_elems (table_after twice_loaded) = 1281
  /\ load_factor_exceeded (table_after twice_loaded) = true.
Proof. split; [|split]; vm_compute; reflexivity. Qed.

Lemma twice_loaded_resize :
  _hash_resize_mem 33 (table_after twice_loaded) (live_after twice_loaded)
  = None.
Proof. vm_compute. reflexivity. Qed.

Lemma twice_loaded_insert key (value : nat) :
  hash_insert_mem (table_after twice_loaded) (live_after twice_loaded)
                  key value = None.
Proof.
  unfold hash_insert_mem, MAX_DEPTH. rewrite hash_insert_mem_depth_S.
  rewrite (proj2 (proj2 twice_loaded_size)), twice_loaded_resize. done.
Qed.

Lemma twice_loaded_contains :
  hash_contains (table_after twice_loaded) (wide_key 0) = true.
Proof. vm_compute. reflexivity. Qed.

Lemma twice_loaded_expected :
  (capacity
     <$> hash_insert (table_after twice_loaded) (wide_key 1281) 1281%nat)
  = Some 512.
Proof. vm_compute. reflexivity. Qed.

(** C4, the failing run: 642 insertions of distinct keys, each value a heap
    block of its own, are defined and resize the table once, at the last of
    them; afterwards [hash_get] still returns, for each of the 641 keys
    inserted before, the value that was inserted, but [_hash_resize] has
    freed that block: the value returned is no longer allocated.  A run of
    1282 such insertions is undefined: the second resize frees these blocks
    again. *)
Theorem hash_get_after_resize :
  once_resized = Some (table_after once_resized, live_after once_resized)
  /\ capacity (table_after once_resized) = 256
  /\ (forall i, (i < 641)%nat ->
        hash_get (table_after once_resized) (wide_key i) = Some i
        /\ i ∉ live_after once_resized)
  /\ hash_run_mem (fresh_inserts 0 1282) hash_create (blocks 1282) = None.
Proof.
  split; [exact once_resized_run|].
  split; [exact (proj1 once_resized_size)|].
  split; [|exact twice_resized_undefined].
  intros i Hi. apply returned_but_freed_spec.
  apply (proj1 (forallb_forall _ _) once_resized_freed), in_seq. lia.
Qed.

(** C5, the failing run: after 1281 insertions of distinct keys, each value
    a heap block of its own, the table holds 1281 elements in 256 buckets,
    so the load factor exceeds the threshold and the next insertion calls
    [_hash_resize]; that call is undefined, because it frees again the
    blocks the first resize freed.  The capacity 512 that the table
    functions give, and that the doubling rule asks for, is never
    reached. *)
Theorem second_resize_undefined :
  twice_loaded = Some (table_after twice_loaded, live_after twice_loaded)
  /\ capacity (table_after twice_loaded) = 256
  /\ num_elems (table_after twice_loaded) = 1281
  /\ load_factor_exceeded (table_after twice_loaded) = true
  /\ (capacity
        <$> hash_insert (table_after twice_loaded) (wide_key 1281) 1281%nat)
     = Some 512
  /\ _hash_resize_mem 33 (table_after twice_loaded) (live_after twice_loaded)
     = None
  /\ hash_insert_mem (table_after twice_loaded) (live_after twice_loaded)
                     (wide_key 1281) 1281%nat = None.
Proof.
  split; [exact twice_loaded_run|].
  destruct twice_loaded_size as (Hc & Hn & Hlf).
  split; [exact Hc|]. split; [exact Hn|]. split; [exact Hlf|].
  split; [exact twice_loaded_expected|].
  split; [exact twice_loaded_resize|apply twice_loaded_insert].
Qed.

(** *** The table of a translation with 641 identifiers *)

Lemma table_of_641_identifiers_run :
  table_of_641_identifiers
  = Some (table_after table_of_641_identifiers,
          live_after table_of_641_identifiers).
Proof. apply (run_defined _ 1%nat). vm_compute. reflexivity. Qed.

Lemma table_of_641_identifiers_size :
  capacity (table_after table_of_641_identifiers) = 256
  /\ num_elems (table_after table_of_641_identifiers) = 642
  /\ elements (live_after table_of_641_identifiers) = [641%nat].
Proof. split; [|split]; vm_compute; reflexivity. Qed.

Lemma table_of_641_identifiers_free :
  hash_free_mem (table_after table_of_641_identifiers)
                (live_after table_of_641_identifiers) = None.
Proof. vm_compute. reflexivity. Qed.

End HeapFacts.

(** ** Facts about the translator *)

Module TranslatorFacts.
Import Hash Printf Translator HashSpec TranslatorSpec HashFacts HeapFacts.

(** *** Identifiers of a derivation *)

Lemma hash_contains_known st str :
  wf (symbols st) ->
  hash_contains (symbols st) str = bool_decide (str ∈ known_symbols st).
Proof.
  intros Hwf. rewrite hash_contains_contents by done.
  unfold known_symbols. apply bool_decide_ext. by rewrite elem_of_dom.
Qed.

(** *** Expressions *)

Lemma reduce_expression_defined e st :
  wf (symbols st) -> referenced e ⊆ known_symbols st ->
  (reduce_expression e st).2 = st.
Proof.
  intros Hwf. induction e as [e IH|e1 IH1 op e2 IH2| | | |e1 IH1 e2 IH2|str line];
    simpl; intros Hsub; try done.
  - specialize (IH Hsub). destruct (reduce_expression e st). simpl in *. by subst.
  - specialize (IH1 ltac:(set_solver)). destruct (reduce_expression e1 st).
    simpl in *. subst. specialize (IH2 ltac:(set_solver)).
    destruct (reduce_expression e2 st). simpl in *. by subst.
  - specialize (IH1 ltac:(set_solver)). destruct (reduce_expression e1 st).
    simpl in *. subst. specialize (IH2 ltac:(set_solver)).
    destruct (reduce_expression e2 st). simpl in *. by subst.
  - unfold expression_IDENTIFIER. rewrite hash_contains_known by done.
    rewrite bool_decide_eq_true_2 by set_solver. done.
Qed.

(** An expression never touches the table, never clears the flag, and only
    appends to the error stream. *)
Lemma reduce_expression_effects e st :
  symbols (reduce_expression e st).2 = symbols st
  /\ (_error st = 1 -> _error (reduce_expression e st).2 = 1)
  /\ exists more, stderr (reduce_expression e st).2 = stderr st ++ more.
Proof.
  revert st.
  induction e as [e IH|e1 IH1 op e2 IH2| | | |e1 IH1 e2 IH2|str line];
    intros st; simpl;
    try (split; [done|]; split; [done|]; exists []; by rewrite app_nil_r).
  - specialize (IH st). destruct (reduce_expression e st). done.
  - specialize (IH1 st). destruct (reduce_expression e1 st) as [v1 st1].
    specialize (IH2 st1). destruct (reduce_expression e2 st1) as [v2 st2].
    simpl in *. destruct IH1 as (Hs1 & He1 & m1 & Hm1).
    destruct IH2 as (Hs2 & He2 & m2 & Hm2).
    split; [congruence|]. split; [auto|].
    exists (m1 ++ m2). by rewrite Hm2, Hm1, (assoc_L (++)).
  - specialize (IH1 st). destruct (reduce_expression e1 st) as [v1 st1].
    specialize (IH2 st1). destruct (reduce_expression e2 st1) as [v2 st2].
    simpl in *. destruct IH1 as (Hs1 & He1 & m1 & Hm1).
    destruct IH2 as (Hs2 & He2 & m2 & Hm2).
    split; [congruence|]. split; [auto|].
    exists (m1 ++ m2). by rewrite Hm2, Hm1, (assoc_L (++)).
  - unfold expression_IDENTIFIER. destruct (hash_contains _ _); simpl.
    + split; [done|]. split; [done|]. exists []. by rewrite app_nil_r.
    + split; [done|]. split; [done|]. by eexists.
Qed.

(** *** Derivations whose identifiers are all defined *)

Lemma clean_post_trans st st1 st2 new1 new2 :
  clean_post st st1 new1 -> clean_post st1 st2 new2 ->
  clean_post st st2 (new1 ∪ new2).
Proof.
  intros (Hwf1 & Hk1 & He1 & Hs1) (Hwf2 & Hk2 & He2 & Hs2).
  split; [done|]. split; [|split; congruence].
  rewrite Hk2, Hk1. set_solver.
Qed.

Lemma clean_post_refl st : wf (symbols st) -> clean_post st st ∅.
Proof. intros Hwf. split; [done|]. split; [set_solver|done]. Qed.

Lemma assignment_statement_spec ident value st :
  wf (symbols st) ->
  exists st', assignment_statement ident value st
              = Some (ident +:+ " = " +:+ value +:+ ";" +:+ NL, st')
    /\ clean_post st st' {[ ident ]}
    /\ contents (symbols st') = <[ident := value]> (contents (symbols st)).
Proof.
  intros Hwf. unfold assignment_statement.
  destruct (hash_insert_spec (symbols st) ident value Hwf)
    as (h' & -> & Hwf' & Hcont & _).
  simpl. eexists. split; [done|]. split; [|done].
  split; [done|]. split; [|done].
  unfold known_symbols. simpl. rewrite Hcont, dom_insert_L. set_solver.
Qed.

Ltac run_condition cond st Hwf :=
  let He := fresh "He" in
  let c := fresh "c" in
  let st0 := fresh "st" in
  pose proof (reduce_expression_defined cond st Hwf) as He;
  destruct (reduce_expression cond st) as [c st0];
  simpl in He; rewrite He by set_solver; clear He.

Ltac run_part IH st v st1 Hpost :=
  let Hrun := fresh "Hrun" in
  destruct (IH st) as (v & st1 & Hrun & Hpost);
  [done|try done|rewrite Hrun; clear Hrun; cbn [mbind option_bind]].

Lemma reduce_clean :
  (forall s st, wf (symbols st) -> defined_before_use (known_symbols st) s ->
     exists v st', reduce_statement s st = Some (v, st')
                   /\ clean_post st st' (assigned s))
  /\ (forall sl st, wf (symbols st) ->
       defined_before_use_list (known_symbols st) sl ->
       exists v st', reduce_statement_list sl st = Some (v, st')
                     /\ clean_post st st' (assigned_list sl))
  /\ (forall eb st, wf (symbols st) ->
       defined_before_use_elif (known_symbols st) eb ->
       exists v st', reduce_elif_block eb st = Some (v, st')
                     /\ clean_post st st' (assigned_elif eb))
  /\ (forall el st, wf (symbols st) ->
       defined_before_use_else (known_symbols st) el ->
       exists v st', reduce_else_block el st = Some (v, st')
                     /\ clean_post st st' (assigned_else el)).
Proof.
  apply derivation_mutind.
  - (* assignment *)
    intros ident e st Hwf Hsub. simpl in *. run_condition e st Hwf.
    destruct (assignment_statement_spec ident c st Hwf) as (st' & -> & Hpost & _).
    by eexists _, _.
  - (* if *)
    intros cond body IHb st Hwf [Hsub Hbody]. simpl.
    run_condition cond st Hwf. run_part IHb st b st1 Hp1.
    by eexists _, _.
  - (* if, elif, else *)
    intros cond body IHb elifs IHei els IHel st Hwf (Hsub & Hbody & Hei & Hel).
    simpl. run_condition cond st Hwf. run_part IHb st b st1 Hp1.
    pose proof Hp1 as (Hwf1 & Hk1 & _).
    rewrite <-Hk1 in Hei, Hel.
    run_part IHei st1 ei st2 Hp2. pose proof Hp2 as (Hwf2 & Hk2 & _).
    rewrite <-Hk2 in Hel.
    run_part IHel st2 el st3 Hp3.
    eexists _, _. split; [done|].
    eapply clean_post_trans; [|exact Hp3].
    eapply clean_post_trans; [exact Hp1|exact Hp2].
  - (* if, elif *)
    intros cond body IHb elifs IHei st Hwf (Hsub & Hbody & Hei).
    simpl. run_condition cond st Hwf. run_part IHb st b st1 Hp1.
    pose proof Hp1 as (Hwf1 & Hk1 & _). rewrite <-Hk1 in Hei.
    run_part IHei st1 ei st2 Hp2.
    eexists _, _. split; [done|].
    eapply clean_post_trans; [exact Hp1|exact Hp2].
  - (* if, else *)
    intros cond body IHb els IHel st Hwf (Hsub & Hbody & Hel).
    simpl. run_condition cond st Hwf. run_part IHb st b st1 Hp1.
    pose proof Hp1 as (Hwf1 & Hk1 & _). rewrite <-Hk1 in Hel.
    run_part IHel st1 el st2 Hp2.
    eexists _, _. split; [done|].
    eapply clean_post_trans; [exact Hp1|exact Hp2].
  - (* while *)
    intros cond body IHb st Hwf [Hsub Hbody]. simpl.
    run_condition cond st Hwf. run_part IHb st b st1 Hp1.
    by eexists _, _.
  - (* break *)
    intros st Hwf _. simpl. eexists _, _. split; [done|].
    by apply clean_post_refl.
  - (* statement_list statement *)
    intros sl IHsl s IHs st Hwf [Hsl Hs]. simpl.
    run_part IHsl st v1 st1 Hp1. pose proof Hp1 as (Hwf1 & Hk1 & _).
    rewrite <-Hk1 in Hs. run_part IHs st1 v2 st2 Hp2.
    eexists _, _. split; [done|].
    eapply clean_post_trans; [exact Hp1|exact Hp2].
  - (* statement *)
    intros s IHs st Hwf Hs. simpl. by apply IHs.
  - (* elif_block ELIF ... *)
    intros eb IHeb cond body IHb st Hwf (Heb & Hsub & Hbody). simpl.
    run_part IHeb st v1 st1 Hp1. pose proof Hp1 as (Hwf1 & Hk1 & _).
    rewrite <-Hk1 in Hsub, Hbody.
    run_condition cond st1 Hwf1. run_part IHb st1 b st2 Hp2.
    eexists _, _. split; [done|].
    eapply clean_post_trans; [exact Hp1|exact Hp2].
  - (* ELIF ... *)
    intros cond body IHb st Hwf [Hsub Hbody]. simpl.
    run_condition cond st Hwf. run_part IHb st b st1 Hp1.
    by eexists _, _.
  - (* ELSE ... *)
    intros body IHb st Hwf Hbody. simpl. run_part IHb st b st1 Hp1.
    by eexists _, _.
Qed.

(** *** The emitter *)

Lemma iterated_keys_spec (h : hash string) :
  wf h -> iterated_keys h = (concat (table h)).*1.
Proof.
  intros Hwf. pose proof (wf_length h Hwf) as Hlen.
  destruct (hash_iter_create_remaining h Hlen) as (Hh & Hidx & Hrem & Hex).
  destruct (iter_drain_spec (length (concat (table h))) (hash_iter_create h))
    as [Hd _]; [by rewrite Hh|done|done|by rewrite Hrem|].
  unfold iterated_keys. by rewrite Hd, Hrem.
Qed.

Lemma printed_keys_spec (h : hash string) :
  wf h ->
  NoDup (printed_keys h)
  /\ forall key, key ∈ printed_keys h
                 <-> key ∈ dom (contents h) /\ key <> "program"%string.
Proof.
  intros Hwf. unfold printed_keys. rewrite iterated_keys_spec by done.
  split; [apply NoDup_filter, (wf_nodup h Hwf)|].
  intros key. rewrite list_elem_of_filter. unfold contents.
  rewrite dom_list_to_map_L, elem_of_list_to_set. tauto.
Qed.

Lemma initial_state_clean :
  wf (symbols initial_state) /\ known_symbols initial_state = ∅.
Proof.
  destruct (hash_create_wf (V:=string)) as [Hwf Hc]. split; [done|].
  unfold known_symbols. simpl. rewrite Hc. apply dom_empty_L.
Qed.

Lemma program_spec body st :
  wf (symbols st) ->
  exists st', program body st = Some st'
    /\ wf (symbols st')
    /\ contents (symbols st') = <["program"%string := body]> (contents (symbols st))
    /\ _error st' = _error st /\ stderr st' = stderr st.
Proof.
  intros Hwf. unfold program.
  destruct (hash_insert_spec (symbols st) "program" body Hwf)
    as (h' & -> & Hwf' & Hcont & _).
  simpl. by eexists.
Qed.

Lemma example_program_defined : defined_before_use_list ∅ example_program.
Proof. simpl. set_solver. Qed.

(** *** Reductions never fail and never clear the flag *)

Lemma run_post_refl st : wf (symbols st) -> run_post st st.
Proof.
  intros Hwf. split; [done|]. split; [done|]. exists []. by rewrite app_nil_r.
Qed.

Lemma run_post_trans st st1 st2 :
  run_post st st1 -> run_post st1 st2 -> run_post st st2.
Proof.
  intros (Hwf1 & He1 & m1 & Hm1) (Hwf2 & He2 & m2 & Hm2).
  split; [done|]. split; [auto|].
  exists (m1 ++ m2). by rewrite Hm2, Hm1, (assoc_L (++)).
Qed.

Lemma reduce_expression_post e st :
  wf (symbols st) -> run_post st (reduce_expression e st).2.
Proof.
  intros Hwf. destruct (reduce_expression_effects e st) as (Hs & He & Hm).
  split; [by rewrite Hs|done].
Qed.

Lemma assignment_statement_post ident value st :
  wf (symbols st) ->
  exists v st', assignment_statement ident value st = Some (v, st')
                /\ run_post st st'.
Proof.
  intros Hwf.
  destruct (assignment_statement_spec ident value st Hwf)
    as (st' & Hrun & (Hwf' & _ & He & Hs) & _).
  eexists _, st'. split; [done|]. split; [done|]. split; [congruence|].
  exists []. by rewrite app_nil_r.
Qed.

Ltac step_expression cond st Hwf c st1 Hp :=
  pose proof (reduce_expression_post cond st Hwf) as Hp;
  destruct (reduce_expression cond st) as [c st1]; simpl in Hp.

Ltac step_part IH st Hwf v st1 Hp :=
  let Hrun := fresh "Hrun" in
  destruct (IH st Hwf) as (v & st1 & Hrun & Hp);
  rewrite Hrun; clear Hrun; cbn [mbind option_bind].

Lemma reduce_total :
  (forall s st, wf (symbols st) ->
     exists v st', reduce_statement s st = Some (v, st') /\ run_post st st')
  /\ (forall sl st, wf (symbols st) ->
       exists v st', reduce_statement_list sl st = Some (v, st')
                     /\ run_post st st')
  /\ (forall eb st, wf (symbols st) ->
       exists v st', reduce_elif_block eb st = Some (v, st') /\ run_post st st')
  /\ (forall el st, wf (symbols st) ->
       exists v st', reduce_else_block el st = Some (v, st') /\ run_post st st').
Proof.
  apply derivation_mutind.
  - intros ident e st Hwf. simpl. step_expression e st Hwf c st1 Hp1.
    destruct (assignment_statement_post ident c st1 (proj1 Hp1))
      as (v & st2 & -> & Hp2).
    eexists _, _. split; [done|]. by eapply run_post_trans.
  - intros cond body IHb st Hwf. simpl. step_expression cond st Hwf c st1 Hp1.
    step_part IHb st1 (proj1 Hp1) b st2 Hp2.
    eexists _, _. split; [done|]. by eapply run_post_trans.
  - intros cond body IHb elifs IHei els IHel st Hwf. simpl.
    step_expression cond st Hwf c st1 Hp1.
    step_part IHb st1 (proj1 Hp1) b st2 Hp2.
    step_part IHei st2 (proj1 Hp2) ei st3 Hp3.
    step_part IHel st3 (proj1 Hp3) el st4 Hp4.
    eexists _, _. split; [done|].
    eauto using run_post_trans.
  - intros cond body IHb elifs IHei st Hwf. simpl.
    step_expression cond st Hwf c st1 Hp1.
    step_part IHb st1 (proj1 Hp1) b st2 Hp2.
    step_part IHei st2 (proj1 Hp2) ei st3 Hp3.
    eexists _, _. split; [done|]. eauto using run_post_trans.
  - intros cond body IHb els IHel st Hwf. simpl.
    step_expression cond st Hwf c st1 Hp1.
    step_part IHb st1 (proj1 Hp1) b st2 Hp2.
    step_part IHel st2 (proj1 Hp2) el st3 Hp3.
    eexists _, _. split; [done|]. eauto using run_post_trans.
  - intros cond body IHb st Hwf. simpl. step_expression cond st Hwf c st1 Hp1.
    step_part IHb st1 (proj1 Hp1) b st2 Hp2.
    eexists _, _. split; [done|]. by eapply run_post_trans.
  - intros st Hwf. simpl. eexists _, _. split; [done|]. by apply run_post_refl.
  - intros sl IHsl s IHs st Hwf. simpl.
    step_part IHsl st Hwf v1 st1 Hp1. step_part IHs st1 (proj1 Hp1) v2 st2 Hp2.
    eexists _, _. split; [done|]. by eapply run_post_trans.
  - intros s IHs st Hwf. simpl. by apply IHs.
  - intros eb IHeb cond body IHb st Hwf. simpl.
    step_part IHeb st Hwf v1 st1 Hp1.
    step_expression cond st1 (proj1 Hp1) c st2 Hp2.
    step_part IHb st2 (proj1 Hp2) b st3 Hp3.
    eexists _, _. split; [done|]. eauto using run_post_trans.
  - intros cond body IHb st Hwf. simpl. step_expression cond st Hwf c st1 Hp1.
    step_part IHb st1 (proj1 Hp1) b st2 Hp2.
    eexists _, _. split; [done|]. by eapply run_post_trans.
  - intros body IHb st Hwf. simpl. step_part IHb st Hwf b st1 Hp1.
    by eexists _, _.
Qed.

(** *** Reductions that do not resize the table *)

Lemma roomy_load st new :
  wf (symbols st) -> roomy st new -> load_factor_exceeded (symbols st) = false.
Proof.
  intros Hwf Hr. apply load_factor_exceeded_false; [by apply wf_cap_pos|].
  pose proof (num_elems_le_size (symbols st) Hwf) as Hn.
  unfold roomy, known_symbols in Hr.
  assert (size (contents (symbols st))
          <= size (dom (contents (symbols st)) ∪ new))%nat.
  { rewrite <-size_dom. apply subseteq_size. set_solver. }
  lia.
Qed.

Lemma roomy_next st st' new new1 new2 :
  roomy st new -> quiet_post st st' new1 -> new1 ∪ new2 ⊆ new ->
  roomy st' new2.
Proof.
  intros Hr (_ & Hk & Hcap) Hsub. unfold roomy in *. rewrite Hk, Hcap.
  assert (size (known_symbols st ∪ new1 ∪ new2)
          <= size (known_symbols st ∪ new))%nat
    by (apply subseteq_size; set_solver).
  lia.
Qed.

Lemma quiet_post_trans st st1 st2 new1 new2 :
  quiet_post st st1 new1 -> quiet_post st1 st2 new2 ->
  quiet_post st st2 (new1 ∪ new2).
Proof.
  intros (Hwf1 & Hk1 & Hc1) (Hwf2 & Hk2 & Hc2).
  split; [done|]. split; [|congruence]. rewrite Hk2, Hk1. set_solver.
Qed.

Lemma quiet_post_eq st st' new new' :
  new = new' -> quiet_post st st' new -> quiet_post st st' new'.
Proof. by intros <-. Qed.

Lemma quiet_expression e st :
  wf (symbols st) -> quiet_post st (reduce_expression e st).2 ∅.
Proof.
  intros Hwf. destruct (reduce_expression_effects e st) as (Hs & _).
  unfold quiet_post, known_symbols. rewrite Hs.
  split; [done|]. split; [set_solver|done].
Qed.

Lemma quiet_assignment ident value st :
  wf (symbols st) -> roomy st {[ ident ]} ->
  exists st', assignment_statement ident value st
              = Some (ident +:+ " = " +:+ value +:+ ";" +:+ NL, st')
    /\ quiet_post st st' {[ ident ]}
    /\ contents (symbols st') = <[ident := value]> (contents (symbols st)).
Proof.
  intros Hwf Hr. pose proof (roomy_load st _ Hwf Hr) as Hlf.
  unfold assignment_statement.
  destruct (hash_insert_spec (symbols st) ident value Hwf)
    as (h' & -> & Hwf' & Hcont & _ & Hsame & _).
  simpl. eexists. split; [done|]. split; [|done].
  split; [done|]. split; [|by apply Hsame].
  unfold known_symbols. simpl. rewrite Hcont, dom_insert_L. set_solver.
Qed.

Ltac quiet_expr cond st Hwf c st0 P0 :=
  pose proof (quiet_expression cond st Hwf) as P0;
  destruct (reduce_expression cond st) as [c st0]; simpl in P0.

Ltac quiet_part IH st P Hr v st1 P1 :=
  let Hrun := fresh "Hrun" in
  destruct (IH st) as (v & st1 & Hrun & P1);
  [exact (proj1 P)
  |eapply roomy_next; [exact Hr|exact P|set_solver]
  |rewrite Hrun; clear Hrun; cbn [mbind option_bind]].

Lemma reduce_quiet :
  (forall s st, wf (symbols st) -> roomy st (assigned s) ->
     exists v st', reduce_statement s st = Some (v, st')
                   /\ quiet_post st st' (assigned s))
  /\ (forall sl st, wf (symbols st) -> roomy st (assigned_list sl) ->
       exists v st', reduce_statement_list sl st = Some (v, st')
                     /\ quiet_post st st' (assigned_list sl))
  /\ (forall eb st, wf (symbols st) -> roomy st (assigned_elif eb) ->
       exists v st', reduce_elif_block eb st = Some (v, st')
                     /\ quiet_post st st' (assigned_elif eb))
  /\ (forall el st, wf (symbols st) -> roomy st (assigned_else el) ->
       exists v st', reduce_else_block el st = Some (v, st')
                     /\ quiet_post st st' (assigned_else el)).
Proof.
  apply derivation_mutind.
  - intros ident e st Hwf Hr. simpl in *. quiet_expr e st Hwf c st0 P0.
    destruct (quiet_assignment ident c st0 (proj1 P0)) as (st1 & -> & P1 & _).
    { eapply roomy_next; [exact Hr|exact P0|set_solver]. }
    eexists _, _. split; [done|].
    eapply quiet_post_eq; [|exact (quiet_post_trans _ _ _ _ _ P0 P1)].
    set_solver.
  - intros cond body IHb st Hwf Hr. simpl in *. quiet_expr cond st Hwf c st0 P0.
    quiet_part IHb st0 P0 Hr b st1 P1.
    eexists _, _. split; [done|].
    eapply quiet_post_eq; [|exact (quiet_post_trans _ _ _ _ _ P0 P1)].
    set_solver.
  - intros cond body IHb elifs IHei els IHel st Hwf Hr. simpl in *.
    quiet_expr cond st Hwf c st0 P0.
    quiet_part IHb st0 P0 Hr b st1 P1.
    pose proof (quiet_post_trans _ _ _ _ _ P0 P1) as Q1.
    quiet_part IHei st1 Q1 Hr ei st2 P2.
    pose proof (quiet_post_trans _ _ _ _ _ Q1 P2) as Q2.
    quiet_part IHel st2 Q2 Hr el st3 P3.
    eexists _, _. split; [done|].
    eapply quiet_post_eq; [|exact (quiet_post_trans _ _ _ _ _ Q2 P3)].
    set_solver.
  - intros cond body IHb elifs IHei st Hwf Hr. simpl in *.
    quiet_expr cond st Hwf c st0 P0.
    quiet_part IHb st0 P0 Hr b st1 P1.
    pose proof (quiet_post_trans _ _ _ _ _ P0 P1) as Q1.
    quiet_part IHei st1 Q1 Hr ei st2 P2.
    eexists _, _. split; [done|].
    eapply quiet_post_eq; [|exact (quiet_post_trans _ _ _ _ _ Q1 P2)].
    set_solver.
  - intros cond body IHb els IHel st Hwf Hr. simpl in *.
    quiet_expr cond st Hwf c st0 P0.
    quiet_part IHb st0 P0 Hr b st1 P1.
    pose proof (quiet_post_trans _ _ _ _ _ P0 P1) as Q1.
    quiet_part IHel st1 Q1 Hr el st2 P2.
    eexists _, _. split; [done|].
    eapply quiet_post_eq; [|exact (quiet_post_trans _ _ _ _ _ Q1 P2)].
    set_solver.
  - intros cond body IHb st Hwf Hr. simpl in *. quiet_expr cond st Hwf c st0 P0.
    quiet_part IHb st0 P0 Hr b st1 P1.
    eexists _, _. split; [done|].
    eapply quiet_post_eq; [|exact (quiet_post_trans _ _ _ _ _ P0 P1)].
    set_solver.
  - intros st Hwf _. simpl. eexists _, _. split; [done|].
    split; [done|]. split; [set_solver|done].
  - intros sl IHsl s IHs st Hwf Hr. simpl in *.
    destruct (IHsl st Hwf) as (v1 & st1 & -> & P1).
    { unfold roomy in *.
      assert (size (known_symbols st ∪ assigned_list sl)
              <= size (known_symbols st ∪ (assigned_list sl ∪ assigned s)))%nat
        by (apply subseteq_size; set_solver).
      lia. }
    cbn [mbind option_bind].
    quiet_part IHs st1 P1 Hr v2 st2 P2.
    eexists _, _. split; [done|].
    exact (quiet_post_trans _ _ _ _ _ P1 P2).
  - intros s IHs st Hwf Hr. simpl in *. by apply IHs.
  - intros eb IHeb cond body IHb st Hwf Hr. simpl in *.
    destruct (IHeb st Hwf) as (v1 & st1 & -> & P1).
    { unfold roomy in *.
      assert (size (known_symbols st ∪ assigned_elif eb)
              <= size (known_symbols st
                       ∪ (assigned_elif eb ∪ assigned_list body)))%nat
        by (apply subseteq_size; set_solver).
      lia. }
    cbn [mbind option_bind].
    pose proof (quiet_expression cond st1 (proj1 P1)) as P2.
    destruct (reduce_expression cond st1) as [c st2]. simpl in P2.
    pose proof (quiet_post_trans _ _ _ _ _ P1 P2) as Q2.
    quiet_part IHb st2 Q2 Hr b st3 P3.
    eexists _, _. split; [done|].
    eapply quiet_post_eq; [|exact (quiet_post_trans _ _ _ _ _ Q2 P3)].
    set_solver.
  - intros cond body IHb st Hwf Hr. simpl in *. quiet_expr cond st Hwf c st0 P0.
    quiet_part IHb st0 P0 Hr b st1 P1.
    eexists _, _. split; [done|].
    eapply quiet_post_eq; [|exact (quiet_post_trans _ _ _ _ _ P0 P1)].
    set_solver.
  - intros body IHb st Hwf Hr. simpl in *.
    destruct (IHb st Hwf Hr) as (b & st1 & -> & P1). by eexists _, _.
Qed.

Lemma program_quiet body st :
  wf (symbols st) -> roomy st ∅ ->
  exists st', program body st = Some st'
    /\ wf (symbols st')
    /\ contents (symbols st') = <["program"%string := body]> (contents (symbols st))
    /\ capacity (symbols st') = capacity (symbols st)
    /\ _error st' = _error st /\ stderr st' = stderr st.
Proof.
  intros Hwf Hr. pose proof (roomy_load st _ Hwf Hr) as Hlf. unfold program.
  destruct (hash_insert_spec (symbols st) "program" body Hwf)
    as (h' & -> & Hwf' & Hcont & _ & Hsame & _).
  simpl. eexists. split; [done|]. split; [done|]. split; [done|].
  split; [by apply Hsame|done].
Qed.

(** A derivation whose identifiers fit the table is reduced up to
    acceptance without any resize, hence without any free. *)
Lemma derivation_run_quiet (p : statement_list) st :
  wf (symbols st) -> roomy st (assigned_list p) ->
  exists body st1 st2,
    reduce_statement_list p st = Some (body, st1)
    /\ quiet_post st st1 (assigned_list p)
    /\ program body st1 = Some st2
    /\ derivation_run p st = Some (Accepted, st2)
    /\ wf (symbols st2)
    /\ contents (symbols st2)
       = <["program"%string := body]> (contents (symbols st1))
    /\ capacity (symbols st2) = capacity (symbols st)
    /\ _error st2 = _error st1 /\ stderr st2 = stderr st1.
Proof.
  intros Hwf Hr.
  destruct (proj1 (proj2 reduce_quiet) p st Hwf Hr) as (body & st1 & Hrun & Q).
  destruct (program_quiet body st1 (proj1 Q))
    as (st2 & Hprog & Hwf2 & Hc2 & Hcap2 & He2 & Hs2).
  { eapply roomy_next; [exact Hr|exact Q|set_solver]. }
  exists body, st1, st2. split; [done|]. split; [done|]. split; [done|].
  split.
  { unfold derivation_run. rewrite Hrun. simpl. by rewrite Hprog. }
  split; [done|]. split; [done|].
  split; [|done]. destruct Q as (_ & _ & Hcap1). congruence.
Qed.

(** *** Undefined identifiers *)

Lemma reduce_expression_reports e : forall st str line,
  (str, line) ∈ occurrences e -> hash_contains (symbols st) str = false ->
  invalid_symbol str line ∈ stderr (reduce_expression e st).2
  /\ _error (reduce_expression e st).2 = 1.
Proof.
  induction e as [e IH|e1 IH1 op e2 IH2|n|n|b|e1 IH1 e2 IH2|name l];
    intros st str line Hocc Hnot; simpl in *;
    try (by apply elem_of_nil in Hocc).
  - specialize (IH st str line Hocc Hnot).
    destruct (reduce_expression e st). done.
  - pose proof (reduce_expression_effects e1 st) as (Hs1 & _).
    specialize (IH1 st str line).
    destruct (reduce_expression e1 st) as [v1 st1]. simpl in *.
    pose proof (reduce_expression_effects e2 st1) as (_ & He2 & m2 & Hm2).
    specialize (IH2 st1 str line).
    destruct (reduce_expression e2 st1) as [v2 st2]. simpl in *.
    apply elem_of_app in Hocc as [Hocc|Hocc].
    + destruct (IH1 Hocc Hnot) as [Hin He]. split; [|auto].
      rewrite Hm2. apply elem_of_app. by left.
    + apply IH2; [done|]. by rewrite Hs1.
  - pose proof (reduce_expression_effects e1 st) as (Hs1 & _).
    specialize (IH1 st str line).
    destruct (reduce_expression e1 st) as [v1 st1]. simpl in *.
    pose proof (reduce_expression_effects e2 st1) as (_ & He2 & m2 & Hm2).
    specialize (IH2 st1 str line).
    destruct (reduce_expression e2 st1) as [v2 st2]. simpl in *.
    apply elem_of_app in Hocc as [Hocc|Hocc].
    + destruct (IH1 Hocc Hnot) as [Hin He]. split; [|auto].
      rewrite Hm2. apply elem_of_app. by left.
    + apply IH2; [done|]. by rewrite Hs1.
  - apply list_elem_of_singleton in Hocc. simplify_eq.
    unfold expression_IDENTIFIER. rewrite Hnot. simpl. split; [|done].
    apply elem_of_app. right. by apply list_elem_of_singleton.
Qed.

(** C6: when an expression references an identifier the symbol table does
    not hold, its reduction writes "Error: Invalid Symbol (name) on line N"
    with that identifier's name and line and sets the failure flag; the
    action itself appends exactly that line, leaves the table alone and
    raises no error, so the reductions go on: a derivation that follows,
    with identifiers that fit the table without a resize, is reduced up to
    acceptance, the capacity as it was and the flag set. *)
Theorem invalid_symbol_reported (e : expression) (st : state)
    (str : string) (line : Z) :
  wf (symbols st) ->
  (str, line) ∈ occurrences e ->
  hash_contains (symbols st) str = false ->
  reduce_expression (E_IDENTIFIER str line) st
  = (str, {| symbols := symbols st; _error := 1;
             stderr := stderr st ++ [invalid_symbol str line] |})
  /\ invalid_symbol str line ∈ stderr (reduce_expression e st).2
  /\ _error (reduce_expression e st).2 = 1
  /\ symbols (reduce_expression e st).2 = symbols st
  /\ forall p, roomy st (assigned_list p) ->
       exists st',
         derivation_run p (reduce_expression e st).2 = Some (Accepted, st')
         /\ _error st' = 1
         /\ capacity (symbols st') = capacity (symbols st).
Proof.
  intros Hwf Hocc Hnot.
  destruct (reduce_expression_reports e st str line Hocc Hnot) as [Hin He].
  destruct (reduce_expression_effects e st) as (Hs & _).
  split.
  { simpl. unfold expression_IDENTIFIER. by rewrite Hnot. }
  split; [done|]. split; [done|]. split; [done|].
  intros p Hr.
  assert (Hwf0 : wf (symbols (reduce_expression e st).2)) by (by rewrite Hs).
  assert (Hr0 : roomy (reduce_expression e st).2 (assigned_list p)).
  { unfold roomy, known_symbols in *. by rewrite Hs. }
  destruct (derivation_run_quiet p _ Hwf0 Hr0)
    as (body & st1 & st2 & Hrun & _ & _ & Hder & _ & _ & Hcap & He2 & _).
  destruct (proj1 (proj2 reduce_total) p _ Hwf0)
    as (body' & st1' & Hrun' & _ & Hflag & _).
  rewrite Hrun in Hrun'. injection Hrun' as <- <-.
  exists st2. split; [done|]. split; [|by rewrite Hcap, Hs].
  rewrite He2. by apply Hflag.
Qed.

(** [y = x + 1] as the first statement, [x] never assigned. *)
Lemma invalid_symbol_reported_witness :
  wf (symbols initial_state)
  /\ ("x"%string, 1) ∈ occurrences (E_binop (E_IDENTIFIER "x" 1) PLUS (E_FLOAT 1))
  /\ hash_contains (symbols initial_state) "x" = false
  /\ invalid_symbol "x" 1
     ∈ stderr (reduce_expression
                 (E_binop (E_IDENTIFIER "x" 1) PLUS (E_FLOAT 1))
                 initial_state).2.
Proof.
  assert (Hwf : wf (symbols initial_state)) by apply initial_state_clean.
  assert (Hocc : ("x"%string, 1)
                 ∈ occurrences (E_binop (E_IDENTIFIER "x" 1) PLUS (E_FLOAT 1)))
    by (simpl; apply list_elem_of_here).
  assert (Hnot : hash_contains (symbols initial_state) "x" = false)
    by (vm_compute; reflexivity).
  split; [exact Hwf|]. split; [exact Hocc|]. split; [exact Hnot|].
  exact (proj1 (proj2 (invalid_symbol_reported _ _ _ _ Hwf Hocc Hnot))).
Defined.

(** *** Reassignment *)

(** [x = 5.0] followed by [x = 1.0]. *)
Example reassignment_text :
  (fst <$> reduce_statement_list
             (SL_more (SL_one (S_assignment "x" (E_FLOAT 5)))
                      (S_assignment "x" (E_FLOAT 1))) initial_state)
  = Some ("x = 5.0;" +:+ NL +:+ "x = 1.0;" +:+ NL).
Proof. vm_compute. reflexivity. Qed.

(** *** Literals *)

Lemma round_div_exact (n : Z) : round_div (10 * n) 1 = 10 * n.
Proof.
  unfold round_div. rewrite Z.div_1_r, Z.mod_1_r. done.
Qed.

Lemma int_of_float_Z (n : Z) :
  INT_MIN <= n <= INT_MAX -> int_of_float (inject_Z n) = n.
Proof.
  intros [Hlo Hhi]. unfold int_of_float.
  assert (Ht : (if Qle_bool 0 (inject_Z n)
                then Qfloor (inject_Z n) else Qceiling (inject_Z n)) = n).
  { destruct (Qle_bool 0 (inject_Z n)); [apply Qfloor_Z|apply Qceiling_Z]. }
  rewrite Ht.
  by rewrite (proj2 (Z.leb_le _ _) Hlo), (proj2 (Z.leb_le _ _) Hhi).
Qed.

Lemma int_of_float_large (n : Z) :
  INT_MAX < n -> int_of_float (inject_Z n) = INT_MIN.
Proof.
  intros Hn. unfold int_of_float.
  assert (Ht : (if Qle_bool 0 (inject_Z n)
                then Qfloor (inject_Z n) else Qceiling (inject_Z n)) = n).
  { destruct (Qle_bool 0 (inject_Z n)); [apply Qfloor_Z|apply Qceiling_Z]. }
  rewrite Ht. rewrite (proj2 (Z.leb_gt _ _) Hn). by rewrite andb_false_r.
Qed.

Lemma expression_FLOAT_integral (n : Z) :
  0 <= n <= INT_MAX -> expression_FLOAT (inject_Z n) = fmt_d n +:+ ".0".
Proof.
  intros Hn. unfold expression_FLOAT.
  rewrite int_of_float_Z by (unfold INT_MIN; lia).
  rewrite (proj2 (Qeq_bool_iff _ _) (Qeq_refl _)).
  unfold fmt_1f, fmt_d. cbn [Qnum Qden inject_Z].
  rewrite round_div_exact.
  replace (10 * n) with (n * 10) by lia.
  rewrite Z.div_mul, Z.mod_mul by done. done.
Qed.

Lemma expression_FLOAT_large (n : Z) :
  INT_MAX < n -> expression_FLOAT (inject_Z n) = fmt_g (inject_Z n).
Proof.
  intros Hn. unfold expression_FLOAT. rewrite int_of_float_large by done.
  destruct (Qeq_bool (inject_Z INT_MIN) (inject_Z n)) eqn:E; [|done].
  apply Qeq_bool_eq in E. unfold Qeq in E. cbn [Qnum Qden inject_Z] in E.
  assert (INT_MIN < 0 < INT_MAX) by done. lia.
Qed.

Lemma expression_FLOAT_fraction (num : Q) :
  Qeq_bool (inject_Z (Qfloor num)) num = false ->
  expression_FLOAT num = fmt_g num.
Proof.
  intros Hnum. unfold expression_FLOAT.
  destruct (Qeq_bool (inject_Z (int_of_float num)) num) eqn:E; [|done].
  apply Qeq_bool_eq in E.
  assert (Hfl : Qfloor num = int_of_float num).
  { rewrite <-E at 1. apply Qfloor_Z. }
  rewrite Hfl, (proj2 (Qeq_bool_iff _ _) E) in Hnum. done.
Qed.

(** C3 (as amended): a FLOAT token whose value is an integer below [2^31]
    renders with exactly one decimal place, the digits of the integer
    followed by ".0" (so 5 gives "5.0"); any other FLOAT token, whether its
    value has a fraction (5.25 gives "5.25") or is an integer beyond the
    range of [int] (3000000000 gives "3e+09"), and every INTEGER token
    render through [%g] (the INTEGER 5 gives "5"); the BOOLEAN "True"
    renders as "1" and "False", like any other text, as "0". *)
Theorem literal_rendering :
  (forall n : Z, 0 <= n <= INT_MAX ->
     expression_FLOAT (inject_Z n) = fmt_d n +:+ ".0")
  /\ (forall n : Z, INT_MAX < n ->
        expression_FLOAT (inject_Z n) = fmt_g (inject_Z n))
  /\ (forall num, Qeq_bool (inject_Z (Qfloor num)) num = false ->
        expression_FLOAT num = fmt_g num)
  /\ (forall num, expression_INTEGER num = fmt_g num)
  /\ expression_FLOAT 5 = "5.0"%string
  /\ expression_FLOAT (21 # 4) = "5.25"%string
  /\ expression_FLOAT 3000000000 = "3e+09"%string
  /\ expression_INTEGER 5 = "5"%string
  /\ expression_BOOLEAN "True" = "1"%string
  /\ expression_BOOLEAN "False" = "0"%string
  /\ (forall str, str <> "True"%string -> expression_BOOLEAN str = "0"%string).
Proof.
  split; [exact expression_FLOAT_integral|].
  split; [exact expression_FLOAT_large|].
  split; [exact expression_FLOAT_fraction|].
  split; [done|].
  repeat (split; [vm_compute; reflexivity|]).
  intros str Hstr. unfold expression_BOOLEAN.
  by rewrite (proj2 (String.eqb_neq _ _) Hstr).
Qed.

(** C3, counterexample: the INTEGER token 5 equals its own truncation, yet it
    renders as "5", without a decimal place. *)
Lemma integer_literal_without_decimal :
  Qeq_bool (inject_Z (Qfloor 5)) 5 = true
  /\ (reduce_expression (E_INTEGER 5) initial_state).1 = "5"%string
  /\ (reduce_expression (E_INTEGER 5) initial_state).1 <> "5.0"%string.
Proof.
  split; [vm_compute; reflexivity|].
  assert (H5 : (reduce_expression (E_INTEGER 5) initial_state).1 = "5"%string)
    by (vm_compute; reflexivity).
  split; [exact H5|]. rewrite H5. discriminate.
Qed.

(** *** A header without its colon *)

(** C8 (as amended): on [if x > 5] alone the translator writes two
    diagnostics, first the invalid symbol [x] of line 1, then the missing
    colon of line 1, writes nothing to standard output and returns status
    1, however the engine reports the end of the input. *)
Theorem missing_colon_diagnostics (ending : engine_result) :
  main (missing_colon_run ending)
  = Some {| status := 1; stdout := "";
            diagnostics :=
              ["Error: Invalid Symbol (x) on line 1" +:+ NL;
               "Error: Missing colon after 'if' statement on line 1" +:+ NL] |}.
Proof. destruct ending; vm_compute; reflexivity. Qed.

(** C8, counterexample: the run does not write exactly one diagnostic. *)
Lemma missing_colon_two_diagnostics :
  (length ∘ diagnostics <$> main (missing_colon_run SyntaxError)) = Some 2%nat
  /\ (diagnostics <$> main (missing_colon_run SyntaxError))
     <> Some ["Error: Missing colon after 'if' statement on line 1" +:+ NL].
Proof.
  assert (Hrun : (diagnostics <$> main (missing_colon_run SyntaxError))
                 = Some ["Error: Invalid Symbol (x) on line 1" +:+ NL;
                         "Error: Missing colon after 'if' statement on line 1"
                         +:+ NL])
    by (vm_compute; reflexivity).
  split; [vm_compute; reflexivity|]. rewrite Hrun. discriminate.
Qed.

(** *** The insertions a derivation makes *)

Lemma hash_inserts_none {V} (ops : list (string * V)) :
  foldl (fun acc op => h' ← acc; hash_insert h' op.1 op.2) None ops = None.
Proof. induction ops as [|a l IH]; simpl; [done|exact IH]. Qed.

Lemma hash_inserts_app {V} (ops1 ops2 : list (string * V)) h :
  hash_inserts (ops1 ++ ops2) h
  = (h' ← hash_inserts ops1 h; hash_inserts ops2 h').
Proof.
  unfold hash_inserts. rewrite foldl_app.
  destruct (foldl _ (Some h) ops1); simpl; [done|apply hash_inserts_none].
Qed.

Lemma inserts_post_nil st st' :
  symbols st' = symbols st -> inserts_post [] st st'.
Proof. intros Hs. exists []. by rewrite Hs. Qed.

Lemma inserts_post_app keys1 keys2 st st1 st2 :
  inserts_post keys1 st st1 -> inserts_post keys2 st1 st2 ->
  inserts_post (keys1 ++ keys2) st st2.
Proof.
  intros (vals1 & Hl1 & H1) (vals2 & Hl2 & H2). exists (vals1 ++ vals2).
  split; [rewrite !length_app; lia|].
  rewrite zip_with_app by done. by rewrite hash_inserts_app, H1.
Qed.

Lemma inserts_post_pre keys st0 st st' :
  symbols st0 = symbols st -> inserts_post keys st0 st' ->
  inserts_post keys st st'.
Proof. intros Hs (vals & Hl & Hi). exists vals. by rewrite <-Hs. Qed.

Ltac inserts_expr cond st c st0 Hs0 :=
  pose proof (reduce_expression_effects cond st) as (Hs0 & _);
  destruct (reduce_expression cond st) as [c st0]; simpl in Hs0.

Ltac inserts_part f st IH v st1 P :=
  let E := fresh "E" in
  destruct (f st) as [[v st1]|] eqn:E; cbn [mbind option_bind]; [|done];
  pose proof (IH _ _ _ E) as P; clear E.

(** The table a derivation leaves is the table it started from after the
    insertions of [inserted], in that order. *)
Lemma reduce_inserts :
  (forall s st v st', reduce_statement s st = Some (v, st') ->
     inserts_post (inserted s) st st')
  /\ (forall sl st v st', reduce_statement_list sl st = Some (v, st') ->
        inserts_post (inserted_list sl) st st')
  /\ (forall eb st v st', reduce_elif_block eb st = Some (v, st') ->
        inserts_post (inserted_elif eb) st st')
  /\ (forall el st v st', reduce_else_block el st = Some (v, st') ->
        inserts_post (inserted_else el) st st').
Proof.
  apply derivation_mutind.
  - intros ident e st v st'. simpl. inserts_expr e st c st0 Hs0.
    unfold assignment_statement.
    destruct (hash_insert (symbols st0) ident c) as [h|] eqn:E; simpl; [|done].
    intros [= <- <-]. exists [c]. split; [done|].
    simpl. unfold hash_inserts. simpl. by rewrite <-Hs0, E.
  - intros cond body IHb st v st'. simpl. inserts_expr cond st c st0 Hs0.
    inserts_part (reduce_statement_list body) st0 IHb b st1 P1.
    intros [= <- <-]. by eapply inserts_post_pre.
  - intros cond body IHb elifs IHei els IHel st v st'. simpl.
    inserts_expr cond st c st0 Hs0.
    inserts_part (reduce_statement_list body) st0 IHb b st1 P1.
    inserts_part (reduce_elif_block elifs) st1 IHei ei st2 P2.
    inserts_part (reduce_else_block els) st2 IHel el st3 P3.
    intros [= <- <-]. eapply inserts_post_pre; [exact Hs0|].
    eauto using inserts_post_app.
  - intros cond body IHb elifs IHei st v st'. simpl.
    inserts_expr cond st c st0 Hs0.
    inserts_part (reduce_statement_list body) st0 IHb b st1 P1.
    inserts_part (reduce_elif_block elifs) st1 IHei ei st2 P2.
    intros [= <- <-]. eapply inserts_post_pre; [exact Hs0|].
    eauto using inserts_post_app.
  - intros cond body IHb els IHel st v st'. simpl.
    inserts_expr cond st c st0 Hs0.
    inserts_part (reduce_statement_list body) st0 IHb b st1 P1.
    inserts_part (reduce_else_block els) st1 IHel el st2 P2.
    intros [= <- <-]. eapply inserts_post_pre; [exact Hs0|].
    eauto using inserts_post_app.
  - intros cond body IHb st v st'. simpl. inserts_expr cond st c st0 Hs0.
    inserts_part (reduce_statement_list body) st0 IHb b st1 P1.
    intros [= <- <-]. by eapply inserts_post_pre.
  - intros st v st'. simpl. intros [= <- <-]. by apply inserts_post_nil.
  - intros sl IHsl s IHs st v st'. simpl.
    inserts_part (reduce_statement_list sl) st IHsl v1 st1 P1.
    inserts_part (reduce_statement s) st1 IHs v2 st2 P2.
    intros [= <- <-]. eauto using inserts_post_app.
  - intros s IHs st v st'. simpl. apply IHs.
  - intros eb IHeb cond body IHb st v st'. simpl.
    inserts_part (reduce_elif_block eb) st IHeb v1 st1 P1.
    inserts_expr cond st1 c st2 Hs2.
    inserts_part (reduce_statement_list body) st2 IHb b st3 P3.
    intros [= <- <-]. eapply inserts_post_app; [exact P1|].
    by eapply inserts_post_pre.
  - intros cond body IHb st v st'. simpl. inserts_expr cond st c st0 Hs0.
    inserts_part (reduce_statement_list body) st0 IHb b st1 P1.
    intros [= <- <-]. by eapply inserts_post_pre.
  - intros body IHb st v st'. simpl.
    inserts_part (reduce_statement_list body) st IHb b st1 P1.
    by intros [= <- <-].
Qed.

(** The table of an accepted derivation is [hash_create] after the
    insertions of [inserted_list], then that of ["program"]. *)
Lemma derivation_run_inserts (p : statement_list) st :
  derivation_run p initial_state = Some (Accepted, st) ->
  exists vals,
    length vals = length (inserted_list p ++ ["program"%string])
    /\ hash_inserts (zip (inserted_list p ++ ["program"%string]) vals)
                    hash_create
       = Some (symbols st).
Proof.
  unfold derivation_run.
  destruct (reduce_statement_list p initial_state) as [[body st1]|] eqn:E;
    simpl; [|done].
  apply (proj1 (proj2 reduce_inserts)) in E.
  unfold program.
  destruct (hash_insert (symbols st1) "program" body) as [h|] eqn:Ep;
    simpl; [|done].
  intros [= <-].
  assert (P : inserts_post ["program"%string] st1 (set_symbols h st1)).
  { exists [body]. split; [done|]. simpl. unfold hash_inserts. simpl.
    by rewrite Ep. }
  exact (inserts_post_app _ _ _ _ _ E P).
Qed.

(** *** A program with 641 identifiers *)

Lemma assignments_defined (n : nat) : forall known,
  defined_before_use_list known (assignments n).
Proof. induction n as [|n IH]; intros known; simpl; [set_solver|]. split; [apply IH|set_solver]. Qed.

Lemma table_before_program :
  (table_shape <$> reduce_statement_list (assignments 640) initial_state)
  = Some (128, 641, true).
Proof. vm_compute. reflexivity. Qed.

Lemma table_after_program :
  (table_shape <$> derivation_run (assignments 640) initial_state)
  = Some (256, 642, false).
Proof. vm_compute. reflexivity. Qed.

Lemma table_calls_of_641_identifiers :
  table_calls (assignments 640)
  = fresh_inserts 0 641 ++ [Insert "program" 641%nat].
Proof. vm_compute. reflexivity. Qed.

(** C1, the failing run: the program of 641 assignments [k = 1.0] to
    distinct identifiers defines every identifier it uses; its reductions
    leave 641 elements in 128 buckets, so the insertion of ["program"]
    resizes the table.  The calls the translator makes on the table are 641
    insertions and that of ["program"]; with each value a heap block of its
    own, the resize frees the 641 values stored before it: after the last
    insertion only the block of ["program"] is still allocated, all 642
    values are in the table, and [hash_free], which [main] calls before it
    returns zero, is undefined: it frees the 641 blocks again. *)
Theorem translation_of_641_identifiers :
  defined_before_use_list ∅ (assignments 640)
  /\ table_calls (assignments 640)
     = fresh_inserts 0 641 ++ [Insert "program" 641%nat]
  /\ (table_shape <$> reduce_statement_list (assignments 640) initial_state)
     = Some (128, 641, true)
  /\ (table_shape <$> derivation_run (assignments 640) initial_state)
     = Some (256, 642, false)
  /\ table_of_641_identifiers
     = Some (table_after table_of_641_identifiers,
             live_after table_of_641_identifiers)
  /\ capacity (table_after table_of_641_identifiers) = 256
  /\ num_elems (table_after table_of_641_identifiers) = 642
  /\ elements (live_after table_of_641_identifiers) = [641%nat]
  /\ hash_free_mem (table_after table_of_641_identifiers)
                   (live_after table_of_641_identifiers) = None.
Proof.
  split; [apply assignments_defined|].
  split; [exact table_calls_of_641_identifiers|].
  split; [exact table_before_program|].
  split; [exact table_after_program|].
  split; [exact table_of_641_identifiers_run|].
  destruct table_of_641_identifiers_size as (Hc & Hn & Hl).
  split; [exact Hc|]. split; [exact Hn|]. split; [exact Hl|].
  exact table_of_641_identifiers_free.
Qed.

Lemma table_before_reassignment :
  (table_shape <$> reduce_statement_list (assignments 1280) initial_state)
  = Some (256, 1281, true).
Proof. vm_compute. reflexivity. Qed.

Lemma table_calls_before_reassignment :
  imap (fun i key => Insert key i) (inserted_list (assignments 1280))
  = fresh_inserts 0 1281.
Proof. vm_compute. reflexivity. Qed.

(** C7, the failing run: after the 1281 assignments [k = 1.0] to distinct
    identifiers, the table holds 1281 elements in 256 buckets and its load
    factor exceeds the threshold.  The calls made on the table up to there
    are 1281 insertions, defined when each value is a heap block of its
    own; the insertion that a further assignment to the first identifier
    makes is undefined, whatever the new value: the resize check comes
    before the search for the key, and the resize frees again the blocks
    the first resize freed. *)
Theorem reassignment_at_second_resize :
  (table_shape <$> reduce_statement_list (assignments 1280) initial_state)
  = Some (256, 1281, true)
  /\ imap (fun i key => Insert key i) (inserted_list (assignments 1280))
     = fresh_inserts 0 1281
  /\ inserted (S_assignment (wide_key 0) (E_FLOAT 2)) = [wide_key 0]
  /\ twice_loaded = Some (table_after twice_loaded, live_after twice_loaded)
  /\ hash_contains (table_after twice_loaded) (wide_key 0) = true
  /\ forall value : nat,
       hash_insert_mem (table_after twice_loaded) (live_after twice_loaded)
                       (wide_key 0) value = None.
Proof.
  split; [exact table_before_reassignment|].
  split; [exact table_calls_before_reassignment|].
  split; [reflexivity|].
  split; [exact twice_loaded_run|]. split; [exact twice_loaded_contains|].
  intros value. apply twice_loaded_insert.
Qed.

(** *** The gate of the emitter *)

(** [main] emits exactly when the engine accepted and the flag is unset. *)
Lemma main_gate (run : engine_run) (r : engine_result) (st : state) :
  run initial_state = Some (r, st) ->
  (r = Accepted /\ _error st = 0 ->
   main run = (out ← emit (symbols st);
               Some {| status := 0; stdout := out; diagnostics := stderr st |}))
  /\ (~ (r = Accepted /\ _error st = 0) ->
      main run = Some {| status := 1; stdout := ""; diagnostics := stderr st |}).
Proof.
  intros Hrun. unfold main, yylex. rewrite Hrun. simpl. split.
  - intros [-> ->]. done.
  - intros Hnot. destruct r; simpl; [|done].
    destruct (Z.eqb_spec (_error st) 0) as [He|He]; [|done].
    destruct Hnot. done.
Qed.

(** A diagnostic of [PARSE_ERROR] or of an unknown identifier sets the
    flag. *)
Lemma PARSE_ERROR_sets_flag msg line st : _error (PARSE_ERROR msg line st) = 1.
Proof. done. Qed.

Lemma printed_keys_only_program (h : hash string) body :
  wf h -> contents h = {[ "program"%string := body ]} -> printed_keys h = [].
Proof.
  intros Hwf Hc. destruct (printed_keys_spec h Hwf) as [_ Hin].
  destruct (printed_keys h) as [|key l]; [done|].
  destruct (proj1 (Hin key)) as [Hdom Hne]; [apply list_elem_of_here|].
  rewrite Hc, dom_singleton_L in Hdom. set_solver.
Qed.

(** C2, the failing run: after a syntax error reported through [yyerror]
    and recovered by [statement: error NEWLINE], the diagnostic is on the
    error stream, yet the flag is unset, the engine accepts, and [main]
    returns status zero with program text on standard output. *)
Theorem main_emits_after_syntax_error (message error_value : string) :
  main (recovered_syntax_error_run message error_value)
  = Some {| status := 0;
            stdout := program_text [] error_value [];
            diagnostics := ["Error: " +:+ message +:+ NL] |}.
Proof.
  destruct initial_state_clean as [Hwf0 Hk0].
  assert (Hwf1 : wf (symbols (yyerror message initial_state))) by done.
  destruct (program_spec error_value (yyerror message initial_state) Hwf1)
    as (st2 & Hprog & Hwf2 & Hc2 & He2 & Hs2).
  unfold main, yylex, recovered_syntax_error_run.
  rewrite Hprog. simpl. rewrite He2. simpl.
  unfold emit. rewrite hash_get_contents, Hc2, lookup_insert_eq by done.
  simpl. rewrite Hs2.
  assert (Hc0 : contents (symbols (yyerror message initial_state)) = ∅)
    by apply hash_create_wf.
  rewrite Hc0 in Hc2.
  by rewrite (printed_keys_only_program _ error_value Hwf2 Hc2).
Qed.

End TranslatorFacts.

(** ** Further facts about the hash table *)

Module HashExtra.
Import Hash HashSpec HashFacts.

Section extra.
Context {V : Type}.
Implicit Types (h : hash V) (c : chain V) (k key : string) (v value : V).

(** *** Removal *)

Lemma chain_remove_perm key c v0 :
  chain_find key c = Some v0 -> c ≡ₚ (key, v0) :: chain_remove key c.
Proof.
  induction c as [|[k v] c IH]; simpl; [done|].
  destruct (String.eqb_spec key k) as [->|Hne].
  - by intros [= ->].
  - intros Hf. rewrite (IH Hf) at 1. apply Permutation_swap.
Qed.

Lemma chain_remove_absent key c :
  chain_find key c = None -> chain_remove key c = c.
Proof.
  induction c as [|[k v] c IH]; simpl; [done|].
  destruct (String.eqb_spec key k) as [->|Hne]; [done|].
  intros Hf. by rewrite IH.
Qed.

Lemma hash_remove_spec h key :
  wf h ->
  exists h', hash_remove h key = Some h' /\ wf h'
    /\ capacity h' = capacity h
    /\ contents h' = delete key (contents h)
    /\ num_elems h' = (if hash_contains h key
                       then (num_elems h - 1) mod UINT_MOD else num_elems h)
    /\ (hash_contains h key = false -> h' = h).
Proof.
  intros Hwf. destruct (bucket_index_wf h key Hwf) as (idx & c & Hb & Hi & Hidx).
  pose proof (wf_nodup h Hwf) as Hnd.
  pose proof (hash_get_contents h key Hwf) as Hget.
  unfold hash_get in Hget. rewrite Hb in Hget. simpl in Hget.
  rewrite Hi in Hget. simpl in Hget.
  unfold hash_remove, hash_contains. rewrite Hb. simpl. rewrite Hi. simpl.
  destruct (chain_find key c) as [v0|] eqn:Hfind.
  - eexists. split; [done|].
    pose proof (concat_insert_perm (table h) idx c (chain_remove key c) Hi)
      as Hperm.
    pose proof (concat_bucket_perm (table h) idx c Hi) as Hperm0.
    assert (Hperm1 : concat (table h)
                     ≡ₚ (key, v0) :: concat (<[idx:=chain_remove key c]> (table h))).
    { rewrite Hperm0, Hperm. rewrite (chain_remove_perm key c v0 Hfind) at 1.
      done. }
    assert (Hnd1 : NoDup (key :: (concat (<[idx:=chain_remove key c]> (table h))).*1)).
    { rewrite Hperm1 in Hnd. exact Hnd. }
    apply NoDup_cons in Hnd1 as [Hnot Hnd1].
    split; [split; simpl|split; [done|split; [|split; [done|done]]]].
    + by apply wf_cap_pos.
    + by apply wf_cap_uint.
    + rewrite length_insert. by apply wf_length.
    + intros i c2 k2 v2 Hi2 Hin2.
      assert (Hin : (k2, v2) ∈ concat (table h)).
      { rewrite Hperm1. apply elem_of_cons. right.
        by eapply elem_of_bucket. }
      apply elem_of_concat in Hin as (c3 & Hin3 & [j Hj]%list_elem_of_lookup).
      rewrite list_lookup_insert in Hi2. case_decide as Hd.
      * destruct Hd as [<- _]. simplify_eq.
        assert (Hsub : (k2, v2) ∈ c).
        { rewrite (chain_remove_perm key c v0 Hfind).
          apply elem_of_cons. by right. }
        by eapply (wf_bucket h Hwf).
      * by eapply (wf_bucket h Hwf).
    + done.
    + rewrite (wf_count h Hwf), Hperm1. simpl length.
      rewrite Zminus_mod_idemp_l. f_equal. lia.
    + unfold contents. cbn [table].
      rewrite (list_to_map_proper _ _ Hnd Hperm1). simpl.
      rewrite delete_insert_eq. symmetry. apply delete_id.
      by apply not_elem_of_list_to_map.
  - exists h. split; [done|]. split; [done|]. split; [done|].
    split; [|done]. symmetry. apply delete_id. by symmetry.
Qed.

(** *** Insertion undone by removal *)

Lemma hash_insert_no_resize h key value :
  load_factor_exceeded h = false ->
  hash_insert h key value = insert_no_resize h key value.
Proof. intros Hlf. unfold hash_insert, MAX_DEPTH. simpl. by rewrite Hlf. Qed.

(** X3: when the load factor is within the threshold and the key is not
    stored, [hash_insert] followed by [hash_remove] of the same key gives
    back the table it started from, bucket for bucket and count included. *)
Theorem hash_remove_after_insert h key value :
  wf h -> load_factor_exceeded h = false -> hash_contains h key = false ->
  exists h', hash_insert h key value = Some h' /\ hash_remove h' key = Some h.
Proof.
  intros Hwf Hlf Hnot. rewrite hash_insert_no_resize by done.
  destruct (bucket_index_wf h key Hwf) as (idx & c & Hb & Hi & Hidx).
  pose proof (lookup_lt_Some _ _ _ Hi) as Hlt.
  unfold hash_contains in Hnot. rewrite Hb, Hi in Hnot.
  destruct (chain_find key c) eqn:Hfind; [done|].
  unfold insert_no_resize. rewrite Hb. simpl. rewrite Hi. simpl. rewrite Hfind.
  eexists. split; [done|].
  unfold hash_remove, bucket_index in *. simpl.
  destruct (capacity h =? 0); [done|]. injection Hb as Hb. rewrite Hb.
  simpl. rewrite list_lookup_insert_eq by done. simpl.
  rewrite String.eqb_refl. rewrite list_insert_insert_eq, list_insert_id by done.
  assert (Hn : (((num_elems h + 1) mod UINT_MOD) - 1) mod UINT_MOD = num_elems h).
  { rewrite Zminus_mod_idemp_l.
    replace (num_elems h + 1 - 1) with (num_elems h) by lia.
    apply Z.mod_small. rewrite (wf_count h Hwf). by apply Z.mod_pos_bound. }
  rewrite Hn. by destruct h.
Qed.

(** *** Any sequence of insertions and removals *)

Lemma hash_run_snoc (ops : list (operation V)) op h :
  hash_run (ops ++ [op]) h
  = (h' ← hash_run ops h;
     match op with
     | Insert key value => hash_insert h' key value
     | Remove key => hash_remove h' key
     end).
Proof. unfold hash_run. by rewrite foldl_app. Qed.

Lemma hash_run_spec (ops : list (operation V)) h :
  wf h ->
  exists h', hash_run ops h = Some h' /\ wf h'
    /\ contents h' = foldl apply_operation (contents h) ops
    /\ capacity h <= capacity h'.
Proof.
  intros Hwf. induction ops as [|op ops IH] using rev_ind.
  - exists h. split; [done|]. split; [done|]. split; [done|]. lia.
  - destruct IH as (h1 & Hrun & Hwf1 & Hcont1 & Hle1).
    rewrite hash_run_snoc, Hrun, foldl_app. simpl. destruct op as [key value|key].
    + destruct (hash_insert_spec h1 key value Hwf1)
        as (h2 & Hins & Hwf2 & Hcont2 & Hle2 & _).
      exists h2. split; [done|]. split; [done|].
      split; [by rewrite Hcont2, Hcont1|lia].
    + destruct (hash_remove_spec h1 key Hwf1)
        as (h2 & Hrem & Hwf2 & Hcap2 & Hcont2 & _).
      exists h2. split; [done|]. split; [done|].
      split; [by rewrite Hcont2, Hcont1|lia].
Qed.

(** *** The count along a run of insertions *)

Lemma dom_foldl_put (ops : chain V) :
  dom (foldl put (∅ : gmap string V) ops) = list_to_set ops.*1.
Proof.
  induction ops as [|[key value] ops IH] using rev_ind; [apply dom_empty_L|].
  rewrite foldl_put_snoc, fmap_app, list_to_set_app_L. unfold put at 1. simpl.
  rewrite dom_insert_L, IH. set_solver.
Qed.

(** *** What an iterator yields *)

(** X8: draining a fresh iterator over a well-formed table yields exactly
    the associations of the table, each key once and with the value
    [hash_get] returns for it, and as many of them as [num_elems] counts
    (modulo [2^32]). *)
Theorem iteration_yields_contents h (n : nat) :
  wf h -> capacity h <= INT_MAX ->
  (length (concat (table h)) <= n)%nat ->
  NoDup (iter_drain n (hash_iter_create h)).1.*1
  /\ (forall key value,
        (key, value) ∈ (iter_drain n (hash_iter_create h)).1
        <-> hash_get h key = Some value)
  /\ Z.of_nat (length (iter_drain n (hash_iter_create h)).1) mod UINT_MOD
     = num_elems h.
Proof.
  intros Hwf _ Hn. pose proof (wf_length h Hwf) as Hlen.
  destruct (hash_iter_create_remaining h Hlen) as (Hh & Hidx & Hrem & Hex).
  destruct (iter_drain_spec n (hash_iter_create h)) as [Hd _];
    [by rewrite Hh|done|done|by rewrite Hrem|].
  rewrite Hd, Hrem. split; [by apply wf_nodup|]. split.
  - intros key value. rewrite hash_get_contents by done.
    apply elem_of_list_to_map, (wf_nodup h Hwf).
  - by rewrite (wf_count h Hwf).
Qed.

(** X9: on an iterator obtained from [hash_iter_create] by calls of
    [hash_iter_next], [hash_iter_has_next] is false exactly when nothing
    remains to be yielded; otherwise [hash_iter_next] succeeds, yields the
    first remaining association and leaves an iterator over the same table
    with the others remaining. *)
Theorem hash_iter_next_step (it : hash_iter V) :
  iter_ok it ->
  (hash_iter_has_next it = false <-> remaining it = [])
  /\ (hash_iter_has_next it = true ->
      exists a it',
        hash_iter_next it = Some (a, it')
        /\ remaining it = a :: remaining it'
        /\ iter_hash it' = iter_hash it
        /\ iter_ok it').
Proof.
  intros (Hlen & Hidx & Hex).
  unfold hash_iter_has_next, hash_iter_next.
  destruct (next it) as [|a rest] eqn:Hnx.
  - split; [|done]. split; [intros _; by apply Hex|done].
  - split.
    { split; [done|]. unfold remaining. by rewrite Hnx. }
    intros _.
    destruct (_update_hash_iter_next_spec it Hlen Hidx)
      as (Hh & Hidx' & Hrem' & Hex').
    rewrite Hnx in Hrem'. simpl in Hrem'.
    exists a, (_update_hash_iter_next it). split; [done|]. split.
    { rewrite Hrem'. unfold remaining. by rewrite Hnx. }
    split; [done|]. split; [by rewrite Hh|done].
Qed.

Lemma hash_iter_create_ok h :
  length (table h) = Z.to_nat (capacity h) ->
  iter_ok (hash_iter_create h) /\ remaining (hash_iter_create h) = concat (table h).
Proof.
  intros Hlen.
  destruct (hash_iter_create_remaining h Hlen) as (Hh & Hidx & Hrem & Hex).
  split; [|done]. split; [by rewrite Hh|done].
Qed.

(** *** Bucket indices *)

(** X14: the hash of a key fits an [unsigned int], and in a well-formed
    table the bucket index computed from it is defined and designates one of
    the [capacity] buckets of the array. *)
Theorem bucket_index_in_bounds h key :
  wf h ->
  0 <= _djb_hash key < UINT_MOD
  /\ exists idx c,
       bucket_index h key = Some idx
       /\ (idx < length (table h))%nat
       /\ Z.of_nat idx < capacity h
       /\ table h !! idx = Some c.
Proof.
  intros Hwf. split; [by apply Z.mod_pos_bound|].
  destruct (bucket_index_wf h key Hwf) as (idx & c & Hb & Hi & Hidx).
  pose proof (lookup_lt_Some _ _ _ Hi) as Hlt.
  exists idx, c. split; [done|]. split; [done|]. split; [|done].
  rewrite (wf_length h Hwf) in Hlt. pose proof (wf_cap_pos h Hwf). lia.
Qed.

End extra.

(** *** The theorems above on [small_table] and [loaded_table] *)

Lemma small_table_wf : wf small_table.
Proof. exact (hash_inserts_wf _ _ small_table_run). Qed.

Lemma bucket_index_in_bounds_witness :
  wf small_table
  /\ exists idx c,
       bucket_index small_table "x" = Some idx
       /\ (idx < length (table small_table))%nat
       /\ Z.of_nat idx < capacity small_table
       /\ table small_table !! idx = Some c.
Proof.
  split; [exact small_table_wf|].
  exact (proj2 (bucket_index_in_bounds small_table "x" small_table_wf)).
Defined.

Lemma hash_remove_after_insert_witness :
  wf small_table /\ load_factor_exceeded small_table = false
  /\ hash_contains small_table "z" = false
  /\ exists h' : hash nat,
       hash_insert small_table "z" 4%nat = Some h'
       /\ hash_remove h' "z" = Some small_table.
Proof.
  assert (Hlf : load_factor_exceeded small_table = false)
    by (vm_compute; reflexivity).
  assert (Hnot : hash_contains small_table "z" = false)
    by (vm_compute; reflexivity).
  split; [exact small_table_wf|]. split; [exact Hlf|]. split; [exact Hnot|].
  exact (hash_remove_after_insert small_table "z" 4%nat small_table_wf Hlf Hnot).
Defined.

Lemma iteration_yields_contents_witness :
  wf small_table /\ capacity small_table <= INT_MAX
  /\ (length (concat (table small_table)) <= 2)%nat
  /\ NoDup (iter_drain 2 (hash_iter_create small_table)).1.*1.
Proof.
  assert (Hcap : capacity small_table <= INT_MAX) by (vm_compute; discriminate).
  assert (Hn : (length (concat (table small_table)) <= 2)%nat)
    by (vm_compute; lia).
  split; [exact small_table_wf|]. split; [exact Hcap|]. split; [exact Hn|].
  exact (proj1 (iteration_yields_contents small_table 2 small_table_wf Hcap Hn)).
Defined.

Lemma hash_iter_next_step_witness :
  iter_ok (hash_iter_create small_table)
  /\ (hash_iter_has_next (hash_iter_create small_table) = false
      <-> remaining (hash_iter_create small_table) = []).
Proof.
  assert (Hok : iter_ok (hash_iter_create small_table))
    by exact (proj1 (hash_iter_create_ok small_table
                       (wf_length _ small_table_wf))).
  split; [exact Hok|].
  exact (proj1 (hash_iter_next_step (hash_iter_create small_table) Hok)).
Defined.

(** *** The calls with their frees *)

Section heap_extra.
Context `{Countable V}.
Implicit Types (h : hash V) (live : gset V) (c : chain V) (k key : string)
  (v value : V).

Lemma hash_remove_mem_unfold h live key :
  hash_remove_mem h live key
  = (h' ← hash_remove h key;
     live' ← match hash_get h key with
             | Some v0 => free v0 live
             | None => Some live
             end;
     Some (h', live')).
Proof.
  unfold hash_remove_mem, hash_remove, hash_get.
  destruct (bucket_index h key) as [idx|]; simpl; [|done].
  destruct (table h !! idx) as [c|]; simpl; [|done].
  destruct (chain_find key c) as [v0|]; simpl; [|done].
  unfold _association_free. simpl. by destruct (free v0 live).
Qed.

(** X1: [hash_remove] frees the value of the association it unlinks.  On a
    well-formed table where the value stored under the key, if any, is an
    allocated block, the call is defined and keeps the table well-formed
    and its capacity; afterwards the key is absent, every other key reads
    as before, the count is one less exactly when the key was stored, that
    one block has been freed, and removing a key that is not stored leaves
    the very same table and frees nothing.  When the value stored under the
    key is not allocated any more, the call is undefined. *)
Theorem hash_remove_behaviour h live key :
  wf h ->
  ((forall v0, hash_get h key = Some v0 -> v0 ∈ live) ->
   exists h' live',
     hash_remove_mem h live key = Some (h', live') /\ wf h'
     /\ capacity h' = capacity h
     /\ hash_get h' key = None /\ hash_contains h' key = false
     /\ (forall k, k <> key -> hash_get h' k = hash_get h k)
     /\ num_elems h' = (if hash_contains h key
                        then (num_elems h - 1) mod UINT_MOD else num_elems h)
     /\ live' = match hash_get h key with
                | Some v0 => live ∖ {[ v0 ]}
                | None => live
                end
     /\ (hash_contains h key = false -> h' = h))
  /\ (forall v0, hash_get h key = Some v0 -> v0 ∉ live ->
      hash_remove_mem h live key = None).
Proof.
  intros Hwf.
  destruct (hash_remove_spec h key Hwf)
    as (h' & Hrem & Hwf' & Hcap & Hcont & Hn & Hsame).
  split.
  - intros Hlive. rewrite hash_remove_mem_unfold, Hrem. simpl.
    exists h'.
    exists (match hash_get h key with
            | Some v0 => live ∖ {[ v0 ]}
            | None => live
            end).
    split.
    { destruct (hash_get h key) as [v0|] eqn:E; [|done].
      by rewrite (HeapFacts.free_live v0 live (Hlive v0 eq_refl)). }
    split; [done|]. split; [done|]. split.
    { rewrite hash_get_contents, Hcont by done. apply lookup_delete_eq. }
    split.
    { rewrite hash_contains_contents, Hcont, lookup_delete_eq by done.
      apply bool_decide_eq_false_2. by intros [? ?]. }
    split; [|done].
    intros k Hk. rewrite !hash_get_contents, Hcont by done.
    by apply lookup_delete_ne.
  - intros v0 Hget Hdead. rewrite hash_remove_mem_unfold, Hrem, Hget. simpl.
    by rewrite HeapFacts.free_dead.
Qed.

(** X2: when the load factor is within the threshold, [hash_insert] with a
    key the table does not store frees nothing and adds exactly that
    association: the capacity is unchanged, the count grows by one, the key
    is found with the value given, every other key reads as before, and the
    table stays well-formed. *)
Theorem hash_insert_absent h live key value :
  wf h -> load_factor_exceeded h = false -> hash_contains h key = false ->
  (exists j : nat, capacity h = INITIAL_CAPACITY * 2 ^ Z.of_nat j) ->
  exists h',
    hash_insert_mem h live key value = Some (h', live) /\ wf h'
    /\ capacity h' = capacity h
    /\ num_elems h' = (num_elems h + 1) mod UINT_MOD
    /\ hash_contains h' key = true
    /\ hash_get h' key = Some value
    /\ (forall k, k <> key -> hash_get h' k = hash_get h k).
Proof.
  intros Hwf Hlf Hnot _.
  rewrite hash_contains_contents in Hnot by done.
  apply bool_decide_eq_false in Hnot.
  assert (Hnone : contents h !! key = None).
  { destruct (contents h !! key) eqn:E; [|done]. destruct Hnot. eauto. }
  destruct (hash_insert_spec h key value Hwf)
    as (h' & Hins & Hwf' & Hcont & _ & Hsame & _).
  exists h'. split.
  { by rewrite HeapFacts.hash_insert_mem_no_resize, Hins. }
  split; [done|]. split; [by apply Hsame|]. split.
  { rewrite (wf_count h' Hwf'), (wf_count h Hwf).
    rewrite <-!size_contents, Hcont by done.
    rewrite map_size_insert, Hnone. simpl.
    rewrite Z.add_mod_idemp_l by done. f_equal. lia. }
  split.
  { rewrite hash_contains_contents, Hcont, lookup_insert_eq by done.
    apply bool_decide_eq_true_2. eauto. }
  split.
  { rewrite hash_get_contents, Hcont by done. apply lookup_insert_eq. }
  intros k Hk. rewrite !hash_get_contents, Hcont by done.
  by apply lookup_insert_ne.
Qed.

(** X4: whenever a sequence of fewer than [2^24] insertions and removals on
    a table fresh from [hash_create] is defined, the table it leaves
    behaves as the finite map built by the same calls: [hash_get] and
    [hash_contains] read that map, and [num_elems] is its size. *)
Theorem hash_run_refines_map (ops : list (operation V)) live h live' :
  Z.of_nat (length ops) < 2 ^ 24 ->
  hash_run_mem ops hash_create live = Some (h, live') ->
  wf h
  /\ (forall key, hash_get h key = foldl apply_operation ∅ ops !! key)
  /\ (forall key, hash_contains h key
                  = bool_decide (is_Some (foldl apply_operation ∅ ops !! key)))
  /\ num_elems h
     = Z.of_nat (size (foldl apply_operation (∅ : gmap string V) ops))
       mod UINT_MOD.
Proof.
  intros _ Hmem. apply HeapFacts.hash_run_mem_table in Hmem. simpl in Hmem.
  destruct (hash_create_wf (V:=V)) as [Hwf0 Hc0].
  destruct (hash_run_spec ops hash_create Hwf0) as (h2 & Hrun & Hwf & Hcont & _).
  rewrite Hmem in Hrun. injection Hrun as <-.
  rewrite Hc0 in Hcont.
  split; [done|]. split.
  { intros key. by rewrite hash_get_contents, Hcont. }
  split.
  { intros key. by rewrite hash_contains_contents, Hcont. }
  by rewrite (wf_count h Hwf), <-size_contents, Hcont.
Qed.

Lemma hash_run_mem_none (ops : list (operation V)) :
  foldl (fun acc op =>
           st ← acc;
           match op with
           | Insert key value => hash_insert_mem st.1 st.2 key value
           | Remove key => hash_remove_mem st.1 st.2 key
           end) None ops = None.
Proof. induction ops as [|a l IH]; simpl; [done|exact IH]. Qed.

(** X5: the capacity never shrinks: whenever a sequence of fewer than
    [2^24] insertions and removals from [hash_create] is defined, so is
    each of its prefixes, and the capacity after the prefix is at most the
    capacity after the whole sequence, and never below
    [INITIAL_CAPACITY]. *)
Theorem capacity_never_shrinks (ops1 ops2 : list (operation V)) live h2 live2 :
  Z.of_nat (length (ops1 ++ ops2)) < 2 ^ 24 ->
  hash_run_mem (ops1 ++ ops2) hash_create live = Some (h2, live2) ->
  exists h1 live1,
    hash_run_mem ops1 hash_create live = Some (h1, live1)
    /\ hash_run_mem ops2 h1 live1 = Some (h2, live2)
    /\ INITIAL_CAPACITY <= capacity h1 <= capacity h2.
Proof.
  intros _ Hrun. unfold hash_run_mem in Hrun. rewrite foldl_app in Hrun.
  fold (hash_run_mem ops1 hash_create live) in Hrun.
  destruct (hash_run_mem ops1 hash_create live) as [[h1 live1]|] eqn:E1;
    [|by rewrite hash_run_mem_none in Hrun].
  fold (hash_run_mem ops2 h1 live1) in Hrun.
  exists h1, live1. split; [done|]. split; [done|].
  apply HeapFacts.hash_run_mem_table in E1, Hrun. simpl in E1, Hrun.
  destruct (hash_create_wf (V:=V)) as [Hwf0 _].
  destruct (hash_run_spec ops1 hash_create Hwf0) as (h1' & Hrun1 & Hwf1 & _ & Hle1).
  rewrite E1 in Hrun1. injection Hrun1 as <-.
  destruct (hash_run_spec ops2 h1 Hwf1) as (h2' & Hrun2 & _ & _ & Hle2).
  rewrite Hrun in Hrun2. injection Hrun2 as <-.
  simpl in Hle1. lia.
Qed.

(** X6: insertions with at most 640 distinct keys into a table fresh from
    [hash_create] never resize it and free nothing: the run is defined, the
    capacity stays [INITIAL_CAPACITY], and [num_elems] is the number of
    distinct keys inserted. *)
Theorem count_after_inserts (ops : list (string * V)) live :
  Z.of_nat (size (list_to_set ops.*1 : gset string))
    <= LOAD_FACTOR_THR * INITIAL_CAPACITY ->
  exists h,
    hash_run_mem ((fun a => Insert a.1 a.2) <$> ops) hash_create live
    = Some (h, live)
    /\ capacity h = INITIAL_CAPACITY
    /\ num_elems h = Z.of_nat (size (list_to_set ops.*1 : gset string)).
Proof.
  intros Hsize.
  assert (Hrun : exists h,
             hash_run_mem ((fun a => Insert a.1 a.2) <$> ops) hash_create live
             = Some (h, live)
             /\ wf h /\ capacity h = INITIAL_CAPACITY
             /\ contents h = foldl put ∅ ops).
  { induction ops as [|[key value] ops IH] using rev_ind.
    - exists hash_create. destruct (hash_create_wf (V:=V)) as [Hwf0 Hc0].
      done.
    - destruct IH as (h & Hrun & Hwf & Hcap & Hcont).
      { rewrite fmap_app, list_to_set_app_L in Hsize.
        assert (size (list_to_set ops.*1 : gset string)
                <= size ((list_to_set ops.*1 : gset string)
                         ∪ list_to_set [(key, value)].*1))%nat
          by (apply subseteq_size; set_solver).
        lia. }
      assert (Hlf : load_factor_exceeded h = false).
      { apply load_factor_exceeded_false; [by apply wf_cap_pos|].
        pose proof (num_elems_le_size h Hwf) as Hn.
        rewrite Hcont, <-size_dom, dom_foldl_put in Hn.
        rewrite fmap_app, list_to_set_app_L in Hsize.
        assert (size (list_to_set ops.*1 : gset string)
                <= size ((list_to_set ops.*1 : gset string)
                         ∪ list_to_set [(key, value)].*1))%nat
          by (apply subseteq_size; set_solver).
        rewrite Hcap. lia. }
      destruct (hash_insert_spec h key value Hwf)
        as (h' & Hins & Hwf' & Hcont' & _ & Hsame & _).
      exists h'. split.
      { rewrite fmap_app. simpl. rewrite HeapFacts.hash_run_mem_snoc, Hrun.
        simpl. by rewrite HeapFacts.hash_insert_mem_no_resize, Hins. }
      split; [done|]. split; [by rewrite Hsame|].
      by rewrite foldl_put_snoc, <-Hcont. }
  destruct Hrun as (h & Hrun & Hwf & Hcap & Hcont).
  exists h. split; [done|]. split; [done|].
  rewrite (wf_count h Hwf), <-size_contents, Hcont, <-size_dom, dom_foldl_put
    by done.
  apply Z.mod_small. unfold LOAD_FACTOR_THR, INITIAL_CAPACITY, UINT_MOD in *.
  lia.
Qed.

(** X7: [_hash_resize] frees the values it re-inserts.  On a well-formed
    table of [INITIAL_CAPACITY * 2^j] buckets that owns its values and
    holds no more than [10 * capacity + 1] of them, the call is defined,
    doubles the capacity and keeps the count and what each key reads; but
    every value the table stores has been freed, so that no value
    [hash_get] returns afterwards is allocated, and [hash_free] on the
    resized table, unless it is empty, is undefined. *)
Theorem _hash_resize_frees_values h live (d : nat) :
  wf h -> 2 * capacity h < UINT_MOD ->
  (exists j : nat, capacity h = INITIAL_CAPACITY * 2 ^ Z.of_nat j) ->
  Z.of_nat (length (concat (table h))) <= 10 * capacity h + 1 ->
  owns h live ->
  exists h' live',
    _hash_resize_mem (S d) h live = Some (h', live')
    /\ live' = live ∖ list_to_set (values h)
    /\ wf h'
    /\ capacity h' = 2 * capacity h
    /\ num_elems h' = num_elems h
    /\ (forall key, hash_get h' key = hash_get h key)
    /\ (forall key v, hash_get h' key = Some v -> v ∉ live')
    /\ (values h <> [] -> hash_free_mem h' live' = None).
Proof.
  intros Hwf Hcap _ Hsmall Hown.
  destruct (HeapFacts._hash_resize_mem_spec d h live Hwf Hcap Hsmall Hown)
    as (h' & Hres & Hwf' & Hcont & Hcap').
  assert (Hstored : forall key v, contents h !! key = Some v -> v ∈ values h).
  { intros key v Hv. apply elem_of_list_to_map in Hv; [|by apply wf_nodup].
    unfold values. apply list_elem_of_fmap. by exists (key, v). }
  exists h', (live ∖ list_to_set (values h)).
  split; [done|]. split; [done|]. split; [done|]. split; [done|]. split.
  { rewrite (wf_count h' Hwf'), (wf_count h Hwf).
    by rewrite <-!size_contents, Hcont. }
  split.
  { intros key. by rewrite !hash_get_contents, Hcont. }
  split.
  { intros key v Hget. rewrite hash_get_contents, Hcont in Hget by done.
    apply Hstored in Hget. set_solver. }
  intros Hne. destruct (values h) as [|v l] eqn:Ev; [done|].
  assert (Hv : v ∈ values h) by (rewrite Ev; apply list_elem_of_here).
  unfold values in Hv. apply list_elem_of_fmap in Hv as ([key v'] & -> & Hin).
  assert (Hlook : contents h !! key = Some v').
  { apply elem_of_list_to_map; [by apply wf_nodup|done]. }
  rewrite <-Hcont in Hlook.
  apply elem_of_list_to_map in Hlook; [|by apply wf_nodup].
  apply (HeapFacts.hash_free_mem_dead h' _ v').
  - unfold values. apply list_elem_of_fmap. by exists (key, v').
  - rewrite <-Ev. simpl.
    assert (v' ∈ values h).
    { unfold values. apply list_elem_of_fmap. by exists (key, v'). }
    set_solver.
Qed.

End heap_extra.

Lemma small_table_owned : owns small_table (blocks 4).
Proof.
  split.
  - apply (bool_decide_unpack _). vm_compute. exact I.
  - apply Forall_forall. apply (bool_decide_unpack _). vm_compute. exact I.
Qed.

Lemma small_table_power :
  exists j : nat, capacity small_table = INITIAL_CAPACITY * 2 ^ Z.of_nat j.
Proof. exists O. vm_compute. reflexivity. Qed.

Lemma hash_remove_behaviour_witness :
  wf small_table
  /\ (forall v0, hash_get small_table "x" = Some v0 -> v0 ∈ blocks 4)
  /\ exists (h' : hash nat) live',
       hash_remove_mem small_table (blocks 4) "x" = Some (h', live')
       /\ hash_get h' "x" = None.
Proof.
  assert (Hlive : forall v0, hash_get small_table "x" = Some v0
                             -> v0 ∈ blocks 4).
  { intros v0 Hget.
    assert (Hx : hash_get small_table "x" = Some 3%nat)
      by (vm_compute; reflexivity).
    rewrite Hx in Hget. injection Hget as <-.
    apply (bool_decide_unpack _). vm_compute. exact I. }
  split; [exact small_table_wf|]. split; [exact Hlive|].
  destruct (proj1 (hash_remove_behaviour small_table (blocks 4) "x"
                     small_table_wf) Hlive)
    as (h' & live' & Hrem & _ & _ & Hget & _).
  exists h', live'. exact (conj Hrem Hget).
Defined.

Lemma hash_insert_absent_witness :
  wf small_table /\ load_factor_exceeded small_table = false
  /\ hash_contains small_table "z" = false
  /\ (exists j : nat, capacity small_table = INITIAL_CAPACITY * 2 ^ Z.of_nat j)
  /\ exists h' : hash nat,
       hash_insert_mem small_table (blocks 4) "z" 4%nat = Some (h', blocks 4)
       /\ num_elems h' = (num_elems small_table + 1) mod UINT_MOD
       /\ hash_get h' "z" = Some 4%nat.
Proof.
  assert (Hlf : load_factor_exceeded small_table = false)
    by (vm_compute; reflexivity).
  assert (Hnot : hash_contains small_table "z" = false)
    by (vm_compute; reflexivity).
  split; [exact small_table_wf|]. split; [exact Hlf|]. split; [exact Hnot|].
  split; [exact small_table_power|].
  destruct (hash_insert_absent small_table (blocks 4) "z" 4%nat
              small_table_wf Hlf Hnot small_table_power)
    as (h' & Hins & _ & _ & Hn & _ & Hget & _).
  exists h'. exact (conj Hins (conj Hn Hget)).
Defined.

(** Two insertions and the removal of the first key. *)
Lemma small_run :
  hash_run_mem [Insert "x" 1%nat; Insert "y" 2%nat; Remove "x"]
               hash_create (blocks 4)
  = Some (table_after
            (hash_run_mem [Insert "x" 1%nat; Insert "y" 2%nat; Remove "x"]
                          hash_create (blocks 4)),
          live_after
            (hash_run_mem [Insert "x" 1%nat; Insert "y" 2%nat; Remove "x"]
                          hash_create (blocks 4))).
Proof. apply (HeapFacts.run_defined _ 3%nat). vm_compute. reflexivity. Qed.

Lemma hash_run_refines_map_witness :
  Z.of_nat (length [Insert "x" 1%nat; Insert "y" 2%nat; Remove "x"]) < 2 ^ 24
  /\ is_Some (hash_run_mem [Insert "x" 1%nat; Insert "y" 2%nat; Remove "x"]
                           hash_create (blocks 4))
  /\ wf (table_after
           (hash_run_mem [Insert "x" 1%nat; Insert "y" 2%nat; Remove "x"]
                         hash_create (blocks 4))).
Proof.
  assert (Hlen : Z.of_nat (length [Insert "x" 1%nat; Insert "y" 2%nat;
                                   Remove (V:=nat) "x"]) < 2 ^ 24)
    by reflexivity.
  split; [exact Hlen|]. split; [rewrite small_run; eauto|].
  exact (proj1 (hash_run_refines_map _ _ _ _ Hlen small_run)).
Defined.

Lemma capacity_never_shrinks_witness :
  Z.of_nat (length ([Insert "x" 1%nat; Insert "y" 2%nat]
                    ++ [Remove (V:=nat) "x"])) < 2 ^ 24
  /\ exists (h1 : hash nat) live1,
       hash_run_mem [Insert "x" 1%nat; Insert "y" 2%nat] hash_create (blocks 4)
       = Some (h1, live1)
       /\ INITIAL_CAPACITY <= capacity h1.
Proof.
  assert (Hlen : Z.of_nat (length ([Insert "x" 1%nat; Insert "y" 2%nat]
                                   ++ [Remove (V:=nat) "x"])) < 2 ^ 24)
    by reflexivity.
  split; [exact Hlen|].
  destruct (capacity_never_shrinks [Insert "x" 1%nat; Insert "y" 2%nat]
              [Remove "x"] _ _ _ Hlen small_run)
    as (h1 & live1 & Hrun1 & _ & Hle & _).
  exists h1, live1. exact (conj Hrun1 Hle).
Defined.

Lemma count_after_inserts_witness :
  Z.of_nat (size (list_to_set small_ops.*1 : gset string))
    <= LOAD_FACTOR_THR * INITIAL_CAPACITY
  /\ exists h : hash nat,
       hash_run_mem ((fun a => Insert a.1 a.2) <$> small_ops) hash_create
                    (blocks 4)
       = Some (h, blocks 4)
       /\ capacity h = INITIAL_CAPACITY.
Proof.
  assert (Hsize : Z.of_nat (size (list_to_set small_ops.*1 : gset string))
                  <= LOAD_FACTOR_THR * INITIAL_CAPACITY)
    by (vm_compute; discriminate).
  split; [exact Hsize|].
  destruct (count_after_inserts small_ops (blocks 4) Hsize)
    as (h & Hrun & Hcap & _).
  exists h. exact (conj Hrun Hcap).
Defined.

Lemma _hash_resize_frees_values_witness :
  wf small_table /\ 2 * capacity small_table < UINT_MOD
  /\ (exists j : nat, capacity small_table = INITIAL_CAPACITY * 2 ^ Z.of_nat j)
  /\ Z.of_nat (length (concat (table small_table)))
     <= 10 * capacity small_table + 1
  /\ owns small_table (blocks 4)
  /\ exists (h' : hash nat) live',
       _hash_resize_mem 1 small_table (blocks 4) = Some (h', live')
       /\ capacity h' = 2 * capacity small_table
       /\ hash_free_mem h' live' = None.
Proof.
  assert (Hcap : 2 * capacity small_table < UINT_MOD)
    by (vm_compute; reflexivity).
  assert (Hsmall : Z.of_nat (length (concat (table small_table)))
                   <= 10 * capacity small_table + 1)
    by (vm_compute; discriminate).
  assert (Hne : values small_table <> []) by (vm_compute; discriminate).
  split; [exact small_table_wf|]. split; [exact Hcap|].
  split; [exact small_table_power|]. split; [exact Hsmall|].
  split; [exact small_table_owned|].
  destruct (_hash_resize_frees_values small_table (blocks 4) O small_table_wf
              Hcap small_table_power Hsmall small_table_owned)
    as (h' & live' & Hres & _ & _ & Hc & _ & _ & _ & Hfree).
  exists h', live'. exact (conj Hres (conj Hc (Hfree Hne))).
Defined.

End HashExtra.

(** ** Further facts about the translator *)

Module TranslatorExtra.
Import Hash Printf Translator HashSpec TranslatorSpec HashFacts TranslatorFacts.

(** *** What the reduction of an expression does *)

Lemma undefined_diagnostics_app h e1 e2 :
  undefined_diagnostics h e1 ++ undefined_diagnostics h e2
  = (fun o => invalid_symbol o.1 o.2)
      <$> filter (fun o => hash_contains h o.1 = false)
                 (occurrences e1 ++ occurrences e2).
Proof.
  unfold undefined_diagnostics, undefined_occurrences.
  by rewrite filter_app, fmap_app.
Qed.

Lemma reduce_expression_exact (e : expression) (st : state) :
  symbols (reduce_expression e st).2 = symbols st
  /\ stderr (reduce_expression e st).2
     = stderr st ++ undefined_diagnostics (symbols st) e
  /\ _error (reduce_expression e st).2
     = match undefined_diagnostics (symbols st) e with
       | [] => _error st
       | _ => 1
       end
  /\ forall st', (reduce_expression e st').1 = (reduce_expression e st).1.
Proof.
  revert st.
  induction e as [e IH|e1 IH1 op e2 IH2|n|n|b|e1 IH1 e2 IH2|name l];
    intros st; simpl;
    try (split; [done|]; split; [by rewrite app_nil_r|]; split; done).
  - destruct (IH st) as (Hs & Hm & He & Ht).
    destruct (reduce_expression e st) as [v st1] eqn:E. simpl in *.
    split; [done|]. split; [done|]. split; [done|].
    intros st'. specialize (Ht st'). destruct (reduce_expression e st').
    simpl in *. by rewrite Ht.
  - destruct (IH1 st) as (Hs1 & Hm1 & He1 & Ht1).
    destruct (reduce_expression e1 st) as [v1 st1] eqn:E1. simpl in *.
    destruct (IH2 st1) as (Hs2 & Hm2 & He2 & Ht2).
    destruct (reduce_expression e2 st1) as [v2 st2] eqn:E2. simpl in *.
    rewrite Hs1 in *.
    fold (undefined_occurrences (symbols st) (E_binop e1 op e2)).
    unfold undefined_diagnostics at 1 2, undefined_occurrences. simpl.
    rewrite <-undefined_diagnostics_app.
    split; [done|]. split; [by rewrite Hm2, Hm1, (assoc_L (++))|]. split.
    { rewrite He2, He1.
      destruct (undefined_diagnostics (symbols st) e1),
               (undefined_diagnostics (symbols st) e2); done. }
    intros st'. specialize (Ht1 st').
    destruct (reduce_expression e1 st') as [v1' st1']. simpl in *.
    specialize (Ht2 st1'). destruct (reduce_expression e2 st1'). simpl in *.
    by rewrite Ht1, Ht2.
  - destruct (IH1 st) as (Hs1 & Hm1 & He1 & Ht1).
    destruct (reduce_expression e1 st) as [v1 st1] eqn:E1. simpl in *.
    destruct (IH2 st1) as (Hs2 & Hm2 & He2 & Ht2).
    destruct (reduce_expression e2 st1) as [v2 st2] eqn:E2. simpl in *.
    rewrite Hs1 in *.
    unfold undefined_diagnostics at 1 2, undefined_occurrences. simpl.
    rewrite <-undefined_diagnostics_app.
    split; [done|]. split; [by rewrite Hm2, Hm1, (assoc_L (++))|]. split.
    { rewrite He2, He1.
      destruct (undefined_diagnostics (symbols st) e1),
               (undefined_diagnostics (symbols st) e2); done. }
    intros st'. specialize (Ht1 st').
    destruct (reduce_expression e1 st') as [v1' st1']. simpl in *.
    specialize (Ht2 st1'). by destruct (reduce_expression e2 st1').
  - unfold expression_IDENTIFIER, undefined_diagnostics, undefined_occurrences.
    simpl. rewrite filter_cons, filter_nil. simpl.
    destruct (hash_contains (symbols st) name) eqn:Hc.
    + rewrite decide_False by done. simpl.
      split; [done|]. split; [by rewrite app_nil_r|]. split; [done|].
      intros st'. by destruct (hash_contains (symbols st') name).
    + rewrite decide_True by done. simpl.
      split; [done|]. split; [done|]. split; [done|].
      intros st'. by destruct (hash_contains (symbols st') name).
Qed.

(** X10: the reduction of an expression writes one invalid-symbol diagnostic
    for each identifier token the table does not hold, in the order of the
    text, and nothing else; it sets the flag exactly when there is such a
    token, never changes the table, and the text it yields does not depend
    on the state. *)
Theorem expression_diagnostics (e : expression) (st : state) :
  symbols (reduce_expression e st).2 = symbols st
  /\ stderr (reduce_expression e st).2
     = stderr st ++ undefined_diagnostics (symbols st) e
  /\ _error (reduce_expression e st).2
     = match undefined_diagnostics (symbols st) e with
       | [] => _error st
       | _ => 1
       end
  /\ forall st', (reduce_expression e st').1 = (reduce_expression e st).1.
Proof. exact (reduce_expression_exact e st). Qed.

(** *** Use before definition *)

Lemma referenced_occurrences e :
  referenced e = list_to_set (occurrences e).*1.
Proof.
  induction e as [e IH|e1 IH1 op e2 IH2|n|n|b|e1 IH1 e2 IH2|name l]; simpl;
    try done.
  - by rewrite fmap_app, list_to_set_app_L, IH1, IH2.
  - by rewrite fmap_app, list_to_set_app_L, IH1, IH2.
  - set_solver.
Qed.

Lemma undefined_occurrences_nil (h : hash string) e :
  wf h -> undefined_occurrences h e = [] <-> referenced e ⊆ dom (contents h).
Proof.
  intros Hwf. rewrite referenced_occurrences. unfold undefined_occurrences.
  induction (occurrences e) as [|[str line] l IH]; simpl.
  - split; [set_solver|done].
  - rewrite filter_cons. simpl.
    rewrite hash_contains_contents by done.
    destruct (decide (str ∈ dom (contents h))) as [Hin|Hnot].
    + rewrite bool_decide_eq_true_2 by (by apply elem_of_dom).
      rewrite decide_False by done. rewrite IH. set_solver.
    + rewrite bool_decide_eq_false_2 by (by rewrite <-elem_of_dom).
      rewrite decide_True by done. split; [done|]. set_solver.
Qed.

Lemma flow_post_iff ok ok' new new' st st' :
  (ok <-> ok') -> new = new' -> flow_post ok new st st' ->
  flow_post ok' new' st st'.
Proof.
  intros Hok <- (Hwf & Hk & more & Hm & Hall & Hcase).
  split; [done|]. split; [done|]. exists more. split; [done|]. split; [done|].
  tauto.
Qed.

Lemma flow_post_seq ok1 ok2 new1 new2 st st1 st2 :
  flow_post ok1 new1 st st1 -> flow_post ok2 new2 st1 st2 ->
  flow_post (ok1 /\ ok2) (new1 ∪ new2) st st2.
Proof.
  intros (Hwf1 & Hk1 & m1 & Hm1 & Hall1 & Hcase1)
         (Hwf2 & Hk2 & m2 & Hm2 & Hall2 & Hcase2).
  split; [done|]. split; [rewrite Hk2, Hk1; set_solver|].
  exists (m1 ++ m2). split; [by rewrite Hm2, Hm1, (assoc_L (++))|].
  split; [by apply Forall_app|].
  destruct Hcase1 as [(H1 & -> & He1)|(H1 & Hne1 & He1)];
    destruct Hcase2 as [(H2 & -> & He2)|(H2 & Hne2 & He2)].
  - left. split; [done|]. split; [done|]. congruence.
  - right. split; [tauto|]. split; [done|done].
  - right. split; [tauto|]. split; [by rewrite app_nil_r|congruence].
  - right. split; [tauto|]. split; [|done].
    intros [? _]%app_eq_nil. done.
Qed.

Lemma flow_expression e st :
  wf (symbols st) ->
  flow_post (referenced e ⊆ known_symbols st) ∅ st (reduce_expression e st).2.
Proof.
  intros Hwf. destruct (reduce_expression_exact e st) as (Hs & Hm & He & _).
  split; [by rewrite Hs|]. split.
  { unfold known_symbols. rewrite Hs. set_solver. }
  exists (undefined_diagnostics (symbols st) e). split; [done|]. split.
  { unfold undefined_diagnostics. apply Forall_fmap, Forall_forall.
    intros [str line] _. by exists str, line. }
  pose proof (undefined_occurrences_nil (symbols st) e Hwf) as Hnil.
  fold (known_symbols st) in Hnil. rewrite He.
  unfold undefined_diagnostics.
  destruct (undefined_occurrences (symbols st) e) as [|o l] eqn:E.
  - left. split; [by apply Hnil|done].
  - right. split; [|done]. intros Hsub. by apply Hnil in Hsub.
Qed.

Lemma flow_assignment ident value st :
  wf (symbols st) ->
  exists v st', assignment_statement ident value st = Some (v, st')
                /\ flow_post True {[ ident ]} st st'.
Proof.
  intros Hwf.
  destruct (assignment_statement_spec ident value st Hwf)
    as (st' & Hrun & (Hwf' & Hk & He & Hs) & _).
  eexists _, st'. split; [done|]. split; [done|]. split; [done|].
  exists []. split; [by rewrite app_nil_r|]. split; [done|]. by left.
Qed.

Lemma flow_post_known ok new st st' :
  flow_post ok new st st' ->
  wf (symbols st') /\ known_symbols st' = known_symbols st ∪ new.
Proof. intros (Hwf & Hk & _). done. Qed.

Ltac flow_expr cond st Hwf c st0 P0 Hwf0 Hk0 :=
  pose proof (flow_expression cond st Hwf) as P0;
  destruct (reduce_expression cond st) as [c st0]; simpl in P0;
  pose proof (flow_post_known _ _ _ _ P0) as [Hwf0 Hk0].

Ltac flow_part IH st Hwf v st1 P1 Hwf1 Hk1 :=
  let Hrun := fresh "Hrun" in
  destruct (IH st Hwf) as (v & st1 & Hrun & P1);
  rewrite Hrun; clear Hrun; cbn [mbind option_bind];
  pose proof (flow_post_known _ _ _ _ P1) as [Hwf1 Hk1].

Lemma reduce_flow :
  (forall s st, wf (symbols st) ->
     exists v st', reduce_statement s st = Some (v, st')
       /\ flow_post (defined_before_use (known_symbols st) s) (assigned s) st st')
  /\ (forall sl st, wf (symbols st) ->
       exists v st', reduce_statement_list sl st = Some (v, st')
         /\ flow_post (defined_before_use_list (known_symbols st) sl)
                      (assigned_list sl) st st')
  /\ (forall eb st, wf (symbols st) ->
       exists v st', reduce_elif_block eb st = Some (v, st')
         /\ flow_post (defined_before_use_elif (known_symbols st) eb)
                      (assigned_elif eb) st st')
  /\ (forall el st, wf (symbols st) ->
       exists v st', reduce_else_block el st = Some (v, st')
         /\ flow_post (defined_before_use_else (known_symbols st) el)
                      (assigned_else el) st st').
Proof.
  apply derivation_mutind.
  - intros ident e st Hwf. simpl. flow_expr e st Hwf c st0 P0 Hwf0 Hk0.
    destruct (flow_assignment ident c st0 Hwf0) as (v & st1 & -> & P1).
    eexists _, _. split; [done|].
    eapply flow_post_iff; [| |exact (flow_post_seq _ _ _ _ _ _ _ P0 P1)];
      [tauto|set_solver].
  - intros cond body IHb st Hwf. simpl. flow_expr cond st Hwf c st0 P0 Hwf0 Hk0.
    flow_part IHb st0 Hwf0 b st1 P1 Hwf1 Hk1.
    eexists _, _. split; [done|].
    eapply flow_post_iff; [| |exact (flow_post_seq _ _ _ _ _ _ _ P0 P1)];
      [rewrite Hk0, (right_id_L ∅ (∪)); tauto|set_solver].
  - intros cond body IHb elifs IHei els IHel st Hwf. simpl.
    flow_expr cond st Hwf c st0 P0 Hwf0 Hk0.
    flow_part IHb st0 Hwf0 b st1 P1 Hwf1 Hk1.
    flow_part IHei st1 Hwf1 ei st2 P2 Hwf2 Hk2.
    flow_part IHel st2 Hwf2 el st3 P3 Hwf3 Hk3.
    eexists _, _. split; [done|].
    eapply flow_post_iff;
      [| |exact (flow_post_seq _ _ _ _ _ _ _
                   (flow_post_seq _ _ _ _ _ _ _
                      (flow_post_seq _ _ _ _ _ _ _ P0 P1) P2) P3)];
      [rewrite Hk2, Hk1, Hk0, (right_id_L ∅ (∪)); tauto|set_solver].
  - intros cond body IHb elifs IHei st Hwf. simpl.
    flow_expr cond st Hwf c st0 P0 Hwf0 Hk0.
    flow_part IHb st0 Hwf0 b st1 P1 Hwf1 Hk1.
    flow_part IHei st1 Hwf1 ei st2 P2 Hwf2 Hk2.
    eexists _, _. split; [done|].
    eapply flow_post_iff;
      [| |exact (flow_post_seq _ _ _ _ _ _ _
                   (flow_post_seq _ _ _ _ _ _ _ P0 P1) P2)];
      [rewrite Hk1, Hk0, (right_id_L ∅ (∪)); tauto|set_solver].
  - intros cond body IHb els IHel st Hwf. simpl.
    flow_expr cond st Hwf c st0 P0 Hwf0 Hk0.
    flow_part IHb st0 Hwf0 b st1 P1 Hwf1 Hk1.
    flow_part IHel st1 Hwf1 el st2 P2 Hwf2 Hk2.
    eexists _, _. split; [done|].
    eapply flow_post_iff;
      [| |exact (flow_post_seq _ _ _ _ _ _ _
                   (flow_post_seq _ _ _ _ _ _ _ P0 P1) P2)];
      [rewrite Hk1, Hk0, (right_id_L ∅ (∪)); tauto|set_solver].
  - intros cond body IHb st Hwf. simpl. flow_expr cond st Hwf c st0 P0 Hwf0 Hk0.
    flow_part IHb st0 Hwf0 b st1 P1 Hwf1 Hk1.
    eexists _, _. split; [done|].
    eapply flow_post_iff; [| |exact (flow_post_seq _ _ _ _ _ _ _ P0 P1)];
      [rewrite Hk0, (right_id_L ∅ (∪)); tauto|set_solver].
  - intros st Hwf. simpl. eexists _, _. split; [done|].
    split; [done|]. split; [set_solver|].
    exists []. split; [by rewrite app_nil_r|]. split; [done|]. by left.
  - intros sl IHsl s IHs st Hwf. simpl.
    flow_part IHsl st Hwf v1 st1 P1 Hwf1 Hk1.
    flow_part IHs st1 Hwf1 v2 st2 P2 Hwf2 Hk2.
    eexists _, _. split; [done|].
    eapply flow_post_iff; [| |exact (flow_post_seq _ _ _ _ _ _ _ P1 P2)];
      [rewrite Hk1; tauto|done].
  - intros s IHs st Hwf. simpl. by apply IHs.
  - intros eb IHeb cond body IHb st Hwf. simpl.
    flow_part IHeb st Hwf v1 st1 P1 Hwf1 Hk1.
    flow_expr cond st1 Hwf1 c st2 P2 Hwf2 Hk2.
    flow_part IHb st2 Hwf2 b st3 P3 Hwf3 Hk3.
    eexists _, _. split; [done|].
    eapply flow_post_iff;
      [| |exact (flow_post_seq _ _ _ _ _ _ _
                   (flow_post_seq _ _ _ _ _ _ _ P1 P2) P3)];
      [rewrite Hk2, Hk1, (right_id_L ∅ (∪)); tauto|set_solver].
  - intros cond body IHb st Hwf. simpl. flow_expr cond st Hwf c st0 P0 Hwf0 Hk0.
    flow_part IHb st0 Hwf0 b st1 P1 Hwf1 Hk1.
    eexists _, _. split; [done|].
    eapply flow_post_iff; [| |exact (flow_post_seq _ _ _ _ _ _ _ P0 P1)];
      [rewrite Hk0, (right_id_L ∅ (∪)); tauto|set_solver].
  - intros body IHb st Hwf. simpl.
    flow_part IHb st Hwf b st1 P1 Hwf1 Hk1. by eexists _, _.
Qed.

Lemma roomy_initial (new : gset string) :
  Z.of_nat (size new) <= LOAD_FACTOR_THR * INITIAL_CAPACITY ->
  roomy initial_state new.
Proof.
  intros Hsize. destruct initial_state_clean as [_ Hk0].
  unfold roomy. rewrite Hk0, (left_id_L ∅ (∪)). exact Hsize.
Qed.

(** X11: when some identifier of the derivation is referenced before any
    assignment to it in the text, and the identifiers assigned are few
    enough for the table not to resize (at most 640), [main] returns status
    1 and writes nothing to standard output, and the error stream holds at
    least one line, all of them invalid-symbol diagnostics; the reductions
    are carried through to acceptance all the same, the table keeping its
    initial capacity. *)
Theorem use_before_definition_fails (p : statement_list) :
  ~ defined_before_use_list ∅ p ->
  Z.of_nat (size (assigned_list p)) <= LOAD_FACTOR_THR * INITIAL_CAPACITY ->
  exists diags st,
    diags <> [] /\ Forall is_invalid_symbol diags
    /\ main (derivation_run p)
       = Some {| status := 1; stdout := ""; diagnostics := diags |}
    /\ derivation_run p initial_state = Some (Accepted, st)
    /\ capacity (symbols st) = INITIAL_CAPACITY.
Proof.
  intros Hnot Hsize. destruct initial_state_clean as [Hwf0 Hk0].
  destruct (derivation_run_quiet p initial_state Hwf0 (roomy_initial _ Hsize))
    as (body & st1 & st2 & Hrun & _ & _ & Hder & _ & _ & Hcap & He2 & Hs2).
  destruct (proj1 (proj2 reduce_flow) p initial_state Hwf0)
    as (body' & st1' & Hrun' & _ & _ & more & Hm & Hall & Hcase).
  rewrite Hrun in Hrun'. injection Hrun' as <- <-.
  rewrite Hk0 in Hcase.
  destruct Hcase as [(Hok & _)|(_ & Hne & He)]; [done|].
  exists more, st2. split; [done|]. split; [done|].
  split; [|split; [done|exact Hcap]].
  unfold main, yylex. rewrite Hder. simpl. rewrite He2, He. simpl.
  by rewrite Hs2, Hm.
Qed.

(** X12: when every identifier is defined before use and the identifiers
    assigned are few enough for the table not to resize (at most 640),
    [main] returns status zero and writes no diagnostic; standard output is
    the preamble, one declaration line per identifier assigned in the input
    other than ["program"], each once, the text the reductions of the
    statement list yield between the two comment lines, one print statement
    per declared identifier, and the closing brace; the table keeps its
    initial capacity. *)
Theorem clean_translation_text (p : statement_list) :
  defined_before_use_list ∅ p ->
  Z.of_nat (size (assigned_list p)) <= LOAD_FACTOR_THR * INITIAL_CAPACITY ->
  exists decls body st,
    reduce_statement_list p initial_state = Some (body, st)
    /\ capacity (symbols st) = INITIAL_CAPACITY
    /\ main (derivation_run p)
       = Some {| status := 0;
                 stdout :=
                   "#include <stdio.h>" +:+ NL
                   +:+ "int main() {" +:+ NL
                   +:+ String.concat ""
                         ((fun key => "double " +:+ key +:+ ";" +:+ NL)
                            <$> decls)
                   +:+ NL +:+ "/* Begin Program */" +:+ NL +:+ NL
                   +:+ body
                   +:+ NL +:+ "/* End Program */" +:+ NL +:+ NL
                   +:+ String.concat ""
                         ((fun key =>
                             "printf(" +:+ DQ +:+ key +:+ ": %lf\n" +:+ DQ
                             +:+ ", " +:+ key +:+ ");" +:+ NL) <$> decls)
                   +:+ "}" +:+ NL;
                 diagnostics := [] |}
    /\ NoDup decls
    /\ forall ident, ident ∈ decls
                     <-> ident ∈ assigned_list p /\ ident <> "program"%string.
Proof.
  intros Hdbu Hsize. destruct initial_state_clean as [Hwf0 Hk0].
  destruct (derivation_run_quiet p initial_state Hwf0 (roomy_initial _ Hsize))
    as (body & st1 & st2 & Hrun & (_ & _ & Hcap1) & _ & Hder & Hwf2 & Hc2
        & _ & He2 & Hs2).
  destruct (proj1 (proj2 reduce_clean) p initial_state Hwf0)
    as (body' & st1' & Hrun' & Hwf1 & Hk1 & He1 & Hs1); [by rewrite Hk0|].
  rewrite Hrun in Hrun'. injection Hrun' as <- <-.
  destruct (printed_keys_spec (symbols st2) Hwf2) as [Hnd Hin].
  exists (printed_keys (symbols st2)), body, st1.
  split; [done|]. split; [exact Hcap1|]. split; [|split; [done|]].
  - unfold main, yylex. rewrite Hder. simpl. rewrite He2, He1. simpl.
    unfold emit. rewrite hash_get_contents, Hc2, lookup_insert_eq by done.
    simpl. by rewrite Hs2, Hs1.
  - intros ident. rewrite Hin, Hc2, dom_insert_L.
    fold (known_symbols st1). rewrite Hk1, Hk0. set_solver.
Qed.

(** *** After an error production *)

(** X13: once the action of an error production has run, when the
    statements reduced afterwards assign identifiers that fit the table
    without a resize, the reductions succeed, the capacity is as it was, the
    flag stays set and the diagnostic stays on the error stream, later
    lines coming after it; and any run of the engine that ends with the flag
    set makes [main] return status 1 and write nothing to standard
    output. *)
Theorem parse_error_closes_the_gate (err_message : string) (first_line : Z)
    (rest : statement_list) (st : state) :
  wf (symbols st) ->
  (roomy st (assigned_list rest) ->
   exists v st' later,
     reduce_statement_list rest (PARSE_ERROR err_message first_line st)
     = Some (v, st')
     /\ capacity (symbols st') = capacity (symbols st)
     /\ _error st' = 1
     /\ stderr st'
        = stderr st
          ++ ("Error: " +:+ err_message +:+ " on line "
              +:+ fmt_d first_line +:+ NL) :: later)
  /\ forall (run : engine_run) (ending : engine_result) (st' : state),
       run initial_state = Some (ending, st') -> _error st' = 1 ->
       main run
       = Some {| status := 1; stdout := ""; diagnostics := stderr st' |}.
Proof.
  intros Hwf. split.
  - intros Hr.
    assert (Hwf1 : wf (symbols (PARSE_ERROR err_message first_line st)))
      by done.
    assert (Hr1 : roomy (PARSE_ERROR err_message first_line st)
                        (assigned_list rest)) by done.
    destruct (proj1 (proj2 reduce_quiet) rest _ Hwf1 Hr1)
      as (v & st' & Hrun & _ & _ & Hcap).
    destruct (proj1 (proj2 reduce_total) rest _ Hwf1)
      as (v' & st'' & Hrun' & _ & Hflag & later & Hlater).
    rewrite Hrun in Hrun'. injection Hrun' as <- <-.
    exists v, st', later. split; [done|]. split; [exact Hcap|].
    split; [by apply Hflag|].
    rewrite Hlater. simpl. by rewrite <-(assoc_L (++)).
  - intros run ending st' Hrun He. unfold main, yylex. rewrite Hrun. simpl.
    rewrite He. simpl. by rewrite andb_false_r.
Qed.

Lemma parse_error_closes_the_gate_witness :
  wf (symbols initial_state)
  /\ roomy initial_state (assigned_list (SL_one S_break))
  /\ exists v st' later,
       reduce_statement_list (SL_one S_break)
         (PARSE_ERROR "Invalid indentation" 3 initial_state) = Some (v, st')
       /\ capacity (symbols st') = capacity (symbols initial_state)
       /\ _error st' = 1
       /\ stderr st'
          = stderr initial_state
            ++ ("Error: " +:+ "Invalid indentation" +:+ " on line "
                +:+ fmt_d 3 +:+ NL) :: later.
Proof.
  assert (Hwf : wf (symbols initial_state)) by apply initial_state_clean.
  assert (Hr : roomy initial_state (assigned_list (SL_one S_break))).
  { apply roomy_initial. vm_compute. discriminate. }
  split; [exact Hwf|]. split; [exact Hr|].
  exact (proj1 (parse_error_closes_the_gate "Invalid indentation" 3
                  (SL_one S_break) initial_state Hwf) Hr).
Defined.

(** [y = x] with [x] never assigned. *)
Lemma use_before_definition_fails_witness :
  ~ defined_before_use_list ∅
      (SL_one (S_assignment "y" (E_IDENTIFIER "x" 1)))
  /\ Z.of_nat (size (assigned_list
                       (SL_one (S_assignment "y" (E_IDENTIFIER "x" 1)))))
     <= LOAD_FACTOR_THR * INITIAL_CAPACITY
  /\ exists diags,
       diags <> []
       /\ main (derivation_run (SL_one (S_assignment "y" (E_IDENTIFIER "x" 1))))
          = Some {| status := 1; stdout := ""; diagnostics := diags |}.
Proof.
  assert (Hnot : ~ defined_before_use_list ∅
                     (SL_one (S_assignment "y" (E_IDENTIFIER "x" 1))))
    by (simpl; set_solver).
  assert (Hsize : Z.of_nat (size (assigned_list
                     (SL_one (S_assignment "y" (E_IDENTIFIER "x" 1)))))
                  <= LOAD_FACTOR_THR * INITIAL_CAPACITY)
    by (vm_compute; discriminate).
  split; [exact Hnot|]. split; [exact Hsize|].
  destruct (use_before_definition_fails _ Hnot Hsize)
    as (diags & st & Hne & _ & Hmain & _).
  exists diags. exact (conj Hne Hmain).
Defined.

Lemma example_program_size :
  Z.of_nat (size (assigned_list example_program))
  <= LOAD_FACTOR_THR * INITIAL_CAPACITY.
Proof. vm_compute. discriminate. Qed.

Lemma clean_translation_text_witness :
  defined_before_use_list ∅ example_program
  /\ Z.of_nat (size (assigned_list example_program))
     <= LOAD_FACTOR_THR * INITIAL_CAPACITY
  /\ exists (decls : list string) body st,
       reduce_statement_list example_program initial_state = Some (body, st)
       /\ capacity (symbols st) = INITIAL_CAPACITY
       /\ NoDup decls.
Proof.
  split; [exact example_program_defined|]. split; [exact example_program_size|].
  destruct (clean_translation_text example_program example_program_defined
              example_program_size)
    as (decls & body & st & Hrun & Hcap & _ & Hnd & _).
  exists decls, body, st. exact (conj Hrun (conj Hcap Hnd)).
Defined.

(** *** The table after a derivation *)

(** X15: the reductions of a statement list whose identifiers fit the table
    without a resize, with or without undefined identifiers, succeed and
    leave the capacity as it was and in the table exactly the identifiers it
    held before together with those the statements assign. *)
Theorem assigned_identifiers_are_recorded (p : statement_list) (st : state) :
  wf (symbols st) -> roomy st (assigned_list p) ->
  exists v st',
    reduce_statement_list p st = Some (v, st')
    /\ wf (symbols st')
    /\ capacity (symbols st') = capacity (symbols st)
    /\ forall ident,
         hash_contains (symbols st') ident = true
         <-> hash_contains (symbols st) ident = true \/ ident ∈ assigned_list p.
Proof.
  intros Hwf Hr.
  destruct (proj1 (proj2 reduce_quiet) p st Hwf Hr)
    as (v & st' & Hrun & Hwf' & Hk & Hcap).
  exists v, st'. split; [done|]. split; [done|]. split; [done|].
  intros ident. rewrite !hash_contains_known, !bool_decide_eq_true by done.
  rewrite Hk. set_solver.
Qed.

Lemma assigned_identifiers_are_recorded_witness :
  wf (symbols initial_state)
  /\ roomy initial_state (assigned_list example_program)
  /\ exists v st',
       reduce_statement_list example_program initial_state = Some (v, st')
       /\ wf (symbols st')
       /\ capacity (symbols st') = capacity (symbols initial_state).
Proof.
  assert (Hwf : wf (symbols initial_state)) by apply initial_state_clean.
  assert (Hr : roomy initial_state (assigned_list example_program))
    by exact (roomy_initial _ example_program_size).
  split; [exact Hwf|]. split; [exact Hr|].
  destruct (assigned_identifiers_are_recorded example_program initial_state
              Hwf Hr)
    as (v & st' & Hrun & Hwf' & Hcap & _).
  exists v, st'. exact (conj Hrun (conj Hwf' Hcap)).
Defined.

Lemma example_program_text :
  exists st,
    reduce_statement_list example_program initial_state
    = Some ("x = 5.0;" +:+ NL +:+ "y = x + 2.0;" +:+ NL
            +:+ "if (y > 5.0) {" +:+ NL +:+ "x = 1.0;" +:+ NL +:+ "} "
            +:+ "else {" +:+ NL +:+ "x = 0.0;" +:+ NL +:+ "}" +:+ NL, st).
Proof.
  destruct (reduce_statement_list example_program initial_state)
    as [[body st]|] eqn:E; [|vm_compute in E; discriminate].
  exists st. f_equal. f_equal.
  assert (Hb : (fst <$> reduce_statement_list example_program initial_state)
               = Some body) by (by rewrite E).
  vm_compute in Hb. injection Hb as <-. vm_compute. reflexivity.
Qed.

End TranslatorExtra.
